(** * Proxify: routing-table reconciliation and dispatch

    A shallow embedding of [index.js]. Part I is the program: endpoint
    resolution, the reconciliation pass [updateRoutes] (run alone, and as
    a coroutine of the event loop that fills a [Map] of its own), the
    proxy middleware with [errorHandler], and the Docker event listener
    with its reconnection timers. Part II proves the properties. *)

From Stdlib Require Import String Ascii List Bool Arith NArith Lia Permutation
  Sorted.
Import ListNotations.
Open Scope string_scope.
Open Scope list_scope.

(* ================================================================== *)
(** * Part I: the program                                              *)
(* ================================================================== *)

(** ** JavaScript string primitives used by the program *)

Module Js.

(** [s.split(c)[0]]: the part of [s] before the first [c], all of [s]
    when [c] does not occur. *)
Fixpoint split0 (c : ascii) (s : string) : string :=
  match s with
  | EmptyString => EmptyString
  | String a s' => if Ascii.eqb a c then EmptyString else String a (split0 c s')
  end.

Fixpoint drop (n : nat) (s : string) : string :=
  match n, s with
  | O, _ => s
  | S n', String _ s' => drop n' s'
  | S _, EmptyString => EmptyString
  end.

(** [s.replace(pat, rep)] with a string pattern: only the first
    occurrence of [pat] is replaced. *)
Fixpoint replace (pat rep s : string) : string :=
  if String.prefix pat s then (rep ++ drop (String.length pat) s)%string
  else match s with
       | EmptyString => EmptyString
       | String a s' => String a (replace pat rep s')
       end.

(** Truthiness of a value that is a string or [undefined]. *)
Definition truthy (v : option string) : bool :=
  match v with
  | Some (String _ _) => true
  | _ => false
  end.

(** [a || b] on such values, [b] being a string. *)
Definition or_else (v : option string) (d : string) : string :=
  match v with
  | Some (String a s) => String a s
  | _ => d
  end.

(** A plain object whose own keys are strings, as the list of its
    entries in the order [Object.keys] enumerates them. *)
Definition Obj (V : Type) : Type := list (string * V).

Definition keys {V} (o : Obj V) : list string := map fst o.

End Js.

(** ** The JavaScript [Map], in insertion order *)

Module JsMap.

Definition t (V : Type) : Type := list (string * V).

Definition empty {V} : t V := [].

Fixpoint get {V} (m : t V) (k : string) : option V :=
  match m with
  | [] => None
  | (k', v) :: m' => if String.eqb k' k then Some v else get m' k
  end.

(** [m.set(k, v)]: an existing key keeps its position, a new key goes
    last. *)
Fixpoint set {V} (m : t V) (k : string) (v : V) : t V :=
  match m with
  | [] => [(k, v)]
  | (k', v') :: m' =>
      if String.eqb k' k then (k', v) :: m' else (k', v') :: set m' k v
  end.

Definition keys {V} (m : t V) : list string := map fst m.
Definition values {V} (m : t V) : list V := map snd m.
Definition size {V} (m : t V) : nat := length m.

End JsMap.

(** ** Plain objects read from JSON, and the order of their keys *)

Module JsObject.

Definition digit (c : ascii) : option N :=
  let n := N_of_ascii c in
  if N.leb 48 n && N.leb n 57 then Some (N.sub n 48) else None.

Fixpoint decimal (acc : N) (s : string) : option N :=
  match s with
  | EmptyString => Some acc
  | String c s' =>
      match digit c with
      | Some d => decimal (N.add (N.mul 10 acc) d) s'
      | None => None
      end
  end.

(** The property name [k] is an array index: the canonical decimal
    form (no leading zero) of an integer below [2^32 - 1]. *)
Definition array_index (k : string) : option N :=
  match k with
  | EmptyString => None
  | String c rest =>
      if Ascii.eqb c "0" then
        match rest with EmptyString => Some 0%N | String _ _ => None end
      else
        match decimal 0 k with
        | Some n => if N.ltb n 4294967295 then Some n else None
        | None => None
        end
  end.

(** The properties [JSON.parse] creates from the members of a JSON
    object, in creation order: a repeated name keeps the place of its
    first member and takes the value of its last. *)
Definition properties {V} (members : list (string * V)) : list (string * V) :=
  fold_left (fun o kv => JsMap.set o (fst kv) (snd kv)) members [].

Fixpoint insert {V} (n : N) (kv : string * V) (l : list (N * (string * V)))
  : list (N * (string * V)) :=
  match l with
  | [] => [(n, kv)]
  | (m, kv') :: l' =>
      if N.ltb n m then (n, kv) :: l else (m, kv') :: insert n kv l'
  end.

(** The properties named by an array index, in ascending index order. *)
Fixpoint indexed {V} (props : list (string * V)) : list (N * (string * V)) :=
  match props with
  | [] => []
  | kv :: rest =>
      match array_index (fst kv) with
      | Some n => insert n kv (indexed rest)
      | None => indexed rest
      end
  end.

(** The other properties, in creation order. *)
Definition named {V} (props : list (string * V)) : list (string * V) :=
  filter (fun kv => match array_index (fst kv) with
                    | None => true
                    | Some _ => false
                    end) props.

(** The order in which [Object.keys] enumerates own properties: array
    indices first, ascending, then the other names in creation order. *)
Definition own_order {V} (props : list (string * V)) : Js.Obj V :=
  map snd (indexed props) ++ named props.

(** The object [JSON.parse] yields for a JSON object with these members,
    listed in the order of the text. *)
Definition parsed {V} (members : list (string * V)) : Js.Obj V :=
  own_order (properties members).

End JsObject.

(** ** What the Docker client returns *)

Record Error := { message : string }.

Inductive Result (A : Type) : Type :=
| Resolved (a : A)
| Rejected (e : Error).
Arguments Resolved {A} a.
Arguments Rejected {A} e.

(** An element of [docker.listContainers]. *)
Record ContainerInfo := {
  Id : string;
  Names : list string
}.

Record Network := { net_IPAddress : option string }.

Record NetworkSettingsT := {
  IPAddress : option string;
  Networks : option (Js.Obj Network)
}.

Record ConfigT := { ExposedPorts : option (Js.Obj unit) }.

(** The result of [container.inspect()]. *)
Record ContainerDetails := {
  NetworkSettings : NetworkSettingsT;
  Config : ConfigT
}.

(** ** The routing table *)

Record Endpoint := { name : string; ip : string; port : string }.

Definition Table : Type := JsMap.t Endpoint.

(** One of the two servers. *)
Inductive Server := Management | Proxy.

(** Console output, one constructor per message of the source;
    [LogListening s] stands for the lines the [listen] callback of [s]
    prints. *)
Inductive LogLine :=
| LogUpdating
| LogRoute (n i p : string)
| WarnNoIp (n : string)
| ErrInspect (n msg : string)
| LogTotal (n : nat)
| ErrUpdating (msg : string)
| WarnNoRoute (host : string)
| LogProxying (host target : string)
| LogProxyReq (target : string)
| ErrProxy (host msg : string)
| ErrUnhandled (msg : string)
| ErrEventStream (msg : string)
| LogListenerStarted
| LogContainerEvent (action : string)
| ErrParsingEvent (msg : string)
| WarnStreamEnded
| LogStarting
| LogDockerOk
| LogListening (s : Server)
| ErrInit (msg : string)
| LogShutdown.

(** ** Endpoint resolution (the body of the inner [try] of [updateRoutes]) *)

(** The [for] loop over [Object.keys(networks)] with its [break]: the
    address of the first network whose [IPAddress] is truthy. *)
Fixpoint scan_networks (nets : Js.Obj Network) : option string :=
  match nets with
  | [] => None
  | (_, n) :: rest =>
      if Js.truthy (net_IPAddress n) then net_IPAddress n
      else scan_networks rest
  end.

Definition select_ip (d : ContainerDetails) : option string :=
  let ip := IPAddress (NetworkSettings d) in
  if Js.truthy ip then ip
  else match Networks (NetworkSettings d) with
       | None => ip
       | Some nets =>
           match scan_networks nets with
           | Some a => Some a
           | None => ip
           end
       end.

(** [Object.keys(exposedPorts)[0]?.split("/")[0] || "80"]. *)
Definition select_port (d : ContainerDetails) : string :=
  let exposedPorts := match ExposedPorts (Config d) with
                      | Some o => o
                      | None => []
                      end in
  Js.or_else (option_map (Js.split0 "/") (hd_error (Js.keys exposedPorts))) "80".

(** [None] is the [continue] taken when no address was found. *)
Definition resolve (nm : string) (d : ContainerDetails) : option Endpoint :=
  let ip := select_ip d in
  if negb (Js.truthy ip) then None
  else
    match ip with
    | Some a => Some {| name := nm; ip := a; port := select_port d |}
    | None => None
    end.

(** [containerInfo.Names[0].replace("/", "")]; [None] is the [TypeError]
    raised when [Names] is empty. *)
Definition container_name (c : ContainerInfo) : option string :=
  option_map (Js.replace "/" "") (hd_error (Names c)).

(** ** One reconciliation pass, [updateRoutes] *)

(** What the runtime answers at the two [await]s of [updateRoutes]. *)
Inductive Response :=
| RList (r : Result (list ContainerInfo))
| RInspect (r : Result ContainerDetails).

Definition undefined_replace : string :=
  "Cannot read properties of undefined (reading 'replace')".

(** The rest of the loop body once [inspect] has settled: the contents of
    [newContainerMap] after it, and what is printed. *)
Definition after_inspect (newContainerMap : Table) (nm : string)
  (r : Result ContainerDetails) : Table * list LogLine :=
  match r with
  | Rejected e => (newContainerMap, [ErrInspect nm (message e)])
  | Resolved d =>
      match resolve nm d with
      | None => (newContainerMap, [WarnNoIp nm])
      | Some ep =>
          (JsMap.set newContainerMap nm ep, [LogRoute nm (ip ep) (port ep)])
      end
  end.

(** The pass run from its first line to its last, with nothing else
    running in between, against a runtime whose [inspect] answers are
    given by a function of the container id. *)
Section WholePass.

Variable inspect : string -> Result ContainerDetails.

(** The [for] loop; [None] is an exception that reaches the outer
    [catch]. *)
Fixpoint loop (newContainerMap : Table) (cs : list ContainerInfo)
  : option Table * list LogLine :=
  match cs with
  | [] => (Some newContainerMap, [])
  | c :: rest =>
      match container_name c with
      | None => (None, [ErrUpdating undefined_replace])
      | Some nm =>
          let (m', l1) := after_inspect newContainerMap nm (inspect (Id c)) in
          let (r, l2) := loop m' rest in
          (r, l1 ++ l2)
      end
  end.

(** [updateRoutes]: the contents of the table [containerMap] refers to
    when it returns, and what it prints. It always returns normally. *)
Definition updateRoutes (listing : Result (list ContainerInfo))
  (containerMap : Table) : Table * list LogLine :=
  match listing with
  | Rejected e => (containerMap, [LogUpdating; ErrUpdating (message e)])
  | Resolved containers =>
      match loop JsMap.empty containers with
      | (Some newContainerMap, l) =>
          (newContainerMap,
           LogUpdating :: l ++ [LogTotal (JsMap.size newContainerMap)])
      | (None, l) => (containerMap, LogUpdating :: l)
      end
  end.

End WholePass.

(** ** The proxy middleware and the error handler *)

Record Request := { host_header : option string }.

Inductive Body :=
| ErrorBody (error : string)
| NoRouteBody (error : string) (availableRoutes : list string)
| ProxyErrorBody (error target msg : string)
| HealthBody (activeRoutes : list Endpoint)
| RoutesBody (routes : list (string * string)).

Definition target_of (e : Endpoint) : string :=
  ("http://" ++ ip e ++ ":" ++ port e)%string.

(** What the middleware does before it hands over to the proxy. *)
Inductive Dispatch :=
| Respond (status : nat) (body : Body)
| Forward (host target : string).

(** [req.headers.host?.split(":")[0]]. *)
Definition request_host (req : Request) : option string :=
  option_map (Js.split0 ":") (host_header req).

Definition container_key (host : string) : string :=
  Js.replace ".localhost" "" host.

Definition dispatch (containerMap : Table) (req : Request)
  : Dispatch * list LogLine :=
  let host := request_host req in
  if negb (Js.truthy host) then
    (Respond 400 (ErrorBody "No host header provided"), [])
  else
    match host with
    | None => (Respond 400 (ErrorBody "No host header provided"), [])
    | Some host =>
        let containerName := container_key host in
        match JsMap.get containerMap containerName with
        | None =>
            (Respond 502
               (NoRouteBody ("No container mapped for hostname: " ++ host)%string
                  (map (fun n => (n ++ ".localhost")%string)
                       (JsMap.keys containerMap))),
             [WarnNoRoute host])
        | Some containerInfo =>
            let target := target_of containerInfo in
            (Forward host target, [LogProxying host target])
        end
    end.

(** What the proxy created for a target does with the request. *)
Inductive ProxyOutcome :=
| Upstream (status : nat)                     (* the upstream answered *)
| ProxyError (e : Error) (headersSent : bool) (* the request was sent,
                                                 then [onError] is called *)
| Raised (e : Error).                         (* thrown, or [next(err)],
                                                 before a request is sent *)

(** What the client gets. *)
Inductive Reply :=
| Json (status : nat) (body : Body)
| Relayed (status : nat) (target : string)
| NothingMore.

Definition errorHandler (err : Error) : Reply * list LogLine :=
  (Json 500 (ErrorBody "Internal server error"), [ErrUnhandled (message err)]).

Definition onError (host target : string) (err : Error) (headersSent : bool)
  : Reply * list LogLine :=
  (if negb headersSent
   then Json 502 (ProxyErrorBody "Proxy error" target (message err))
   else NothingMore,
   [ErrProxy host (message err)]).

(** [onProxyReq], called when the request to the target is sent; of the
    line it prints only the target is kept. *)
Definition onProxyReq (target : string) : list LogLine := [LogProxyReq target].

(** The proxy application: the middleware, then [errorHandler]. *)
Definition proxyApp (containerMap : Table) (req : Request) (po : ProxyOutcome)
  : Reply * list LogLine :=
  match dispatch containerMap req with
  | (Respond st b, l) => (Json st b, l)
  | (Forward host target, l) =>
      match po with
      | Upstream st => (Relayed st target, l ++ onProxyReq target)
      | ProxyError e sent =>
          let (r, l') := onError host target e sent in
          (r, l ++ onProxyReq target ++ l')
      | Raised e => let (r, l') := errorHandler e in (r, l ++ l')
      end
  end.

(** ** The management endpoints *)

Definition health (containerMap : Table) : Reply :=
  Json 200 (HealthBody (JsMap.values containerMap)).

Definition routes (containerMap : Table) : Reply :=
  Json 200 (RoutesBody
    (map (fun c => ((name c ++ ".localhost")%string, target_of c))
         (JsMap.values containerMap))).

(** ** The event loop: [init], the Docker event listener, passes in flight *)

(** A parsed Docker event, as far as the listener reads it. *)
Record Event := { ev_Type : string; ev_Action : string }.

(** A chunk of the event stream: [JSON.parse] throws on it (it is not
    one JSON value: several events, or a part of one) or yields an
    event. *)
Inductive Chunk :=
| Malformed (msg : string)
| Parsed (event : Event).

(** Who awaits a pass: [init], or a [data] handler of the event stream. *)
Inductive Caller := FromInit | FromEvent.

(** A reference to a [Map] object. *)
Definition Ref : Type := nat.

(** A call of [updateRoutes] suspended at an [await]: on [listContainers],
    or on [inspect] inside the loop, with the locals live at that point. *)
Inductive Pass :=
| AwaitList
| AwaitInspect (newContainerMap : Ref) (c : ContainerInfo) (nm : string)
               (rest : list ContainerInfo).

Record World := {
  heap : list Table;                 (* the [Map] objects created so far,
                                        by reference *)
  containerMap : Ref;                (* the variable [containerMap] *)
  inflight : list (Pass * Caller);   (* passes suspended at an [await] *)
  awaitingPing : bool;               (* [init] waits for [docker.ping()] *)
  subscribing : nat;                 (* [getEvents] calls not yet called back *)
  eventStream : option nat;
  timers : list nat;                 (* delays of the pending
                                        [setTimeout(setupDockerEventListener, d)] *)
  initPending : bool;                (* the first pass has returned and
                                        [init] goes on next *)
  listening : bool;                  (* the two servers were started *)
  exited : option nat;               (* [process.exit(code)] was called *)
  console : list LogLine
}.

Definition set_heap (h : list Table) (w : World) : World :=
  {| heap := h; containerMap := containerMap w; inflight := inflight w;
     awaitingPing := awaitingPing w; subscribing := subscribing w;
     eventStream := eventStream w; timers := timers w;
     initPending := initPending w; listening := listening w;
     exited := exited w; console := console w |}.

Definition set_containerMap (r : Ref) (w : World) : World :=
  {| heap := heap w; containerMap := r; inflight := inflight w;
     awaitingPing := awaitingPing w; subscribing := subscribing w;
     eventStream := eventStream w; timers := timers w;
     initPending := initPending w; listening := listening w;
     exited := exited w; console := console w |}.

Definition set_inflight (l : list (Pass * Caller)) (w : World) : World :=
  {| heap := heap w; containerMap := containerMap w; inflight := l;
     awaitingPing := awaitingPing w; subscribing := subscribing w;
     eventStream := eventStream w; timers := timers w;
     initPending := initPending w; listening := listening w;
     exited := exited w; console := console w |}.

Definition set_awaitingPing (b : bool) (w : World) : World :=
  {| heap := heap w; containerMap := containerMap w;
     inflight := inflight w; awaitingPing := b;
     subscribing := subscribing w; eventStream := eventStream w;
     timers := timers w; initPending := initPending w;
     listening := listening w; exited := exited w; console := console w |}.

Definition set_subscribing (n : nat) (w : World) : World :=
  {| heap := heap w; containerMap := containerMap w;
     inflight := inflight w; awaitingPing := awaitingPing w;
     subscribing := n; eventStream := eventStream w; timers := timers w;
     initPending := initPending w; listening := listening w;
     exited := exited w; console := console w |}.

Definition set_eventStream (s : option nat) (w : World) : World :=
  {| heap := heap w; containerMap := containerMap w;
     inflight := inflight w; awaitingPing := awaitingPing w;
     subscribing := subscribing w; eventStream := s; timers := timers w;
     initPending := initPending w; listening := listening w;
     exited := exited w; console := console w |}.

Definition set_timers (t : list nat) (w : World) : World :=
  {| heap := heap w; containerMap := containerMap w;
     inflight := inflight w; awaitingPing := awaitingPing w;
     subscribing := subscribing w; eventStream := eventStream w;
     timers := t; initPending := initPending w; listening := listening w;
     exited := exited w; console := console w |}.

Definition set_initPending (b : bool) (w : World) : World :=
  {| heap := heap w; containerMap := containerMap w;
     inflight := inflight w; awaitingPing := awaitingPing w;
     subscribing := subscribing w; eventStream := eventStream w;
     timers := timers w; initPending := b; listening := listening w;
     exited := exited w; console := console w |}.

Definition set_listening (b : bool) (w : World) : World :=
  {| heap := heap w; containerMap := containerMap w;
     inflight := inflight w; awaitingPing := awaitingPing w;
     subscribing := subscribing w; eventStream := eventStream w;
     timers := timers w; initPending := initPending w; listening := b;
     exited := exited w; console := console w |}.

Definition set_exited (c : option nat) (w : World) : World :=
  {| heap := heap w; containerMap := containerMap w;
     inflight := inflight w; awaitingPing := awaitingPing w;
     subscribing := subscribing w; eventStream := eventStream w;
     timers := timers w; initPending := initPending w;
     listening := listening w; exited := c; console := console w |}.

Definition log (l : list LogLine) (w : World) : World :=
  {| heap := heap w; containerMap := containerMap w;
     inflight := inflight w; awaitingPing := awaitingPing w;
     subscribing := subscribing w; eventStream := eventStream w;
     timers := timers w; initPending := initPending w;
     listening := listening w; exited := exited w;
     console := console w ++ l |}.

Fixpoint set_nth {A} (i : nat) (x : A) (l : list A) : list A :=
  match i, l with
  | _, [] => []
  | O, _ :: l' => x :: l'
  | S i', y :: l' => y :: set_nth i' x l'
  end.

Fixpoint del_nth {A} (i : nat) (l : list A) : list A :=
  match i, l with
  | _, [] => []
  | O, _ :: l' => l'
  | S i', y :: l' => y :: del_nth i' l'
  end.

Fixpoint remove_first (d : nat) (l : list nat) : list nat :=
  match l with
  | [] => []
  | x :: l' => if Nat.eqb x d then l' else x :: remove_first d l'
  end.

(** The contents of the [Map] object behind a reference. *)
Definition deref (w : World) (r : Ref) : Table := nth r (heap w) JsMap.empty.

(** The contents of the table [containerMap] refers to: what
    [containerMap.get], [.keys()] and [.values()] read. *)
Definition table (w : World) : Table := deref w (containerMap w).

(** [new Map()]. *)
Definition new_Map (w : World) : Ref * World :=
  (length (heap w), set_heap (heap w ++ [JsMap.empty]) w).

(** The object behind [r] mutated so that its contents are [m]. *)
Definition store (r : Ref) (m : Table) (w : World) : World :=
  set_heap (set_nth r m (heap w)) w.

(** [setTimeout(setupDockerEventListener, d)]. *)
Definition setTimeout (d : nat) (w : World) : World :=
  set_timers (timers w ++ [d]) w.

(** The synchronous start of [updateRoutes()], up to its first [await]. *)
Definition start_pass (caller : Caller) (w : World) : World :=
  set_inflight (inflight w ++ [(AwaitList, caller)]) (log [LogUpdating] w).

(** The head of the [for] loop, run until the next [await] or until
    [updateRoutes] returns: [None] when it has returned, after the
    assignment [containerMap = newContainerMap] or through the outer
    [catch]. *)
Definition enter_loop (newContainerMap : Ref) (cs : list ContainerInfo)
  (w : World) : option Pass * World :=
  match cs with
  | [] =>
      let w := set_containerMap newContainerMap w in
      (None, log [LogTotal (JsMap.size (table w))] w)
  | c :: rest =>
      match container_name c with
      | None => (None, log [ErrUpdating undefined_replace] w)
      | Some nm => (Some (AwaitInspect newContainerMap c nm rest), w)
      end
  end.

(** Resuming a suspended pass with the runtime's answer; the outer [None]
    when the answer is not the one the pass waits for. *)
Definition resume (p : Pass) (r : Response) (w : World)
  : option (option Pass * World) :=
  match p, r with
  | AwaitList, RList (Rejected e) =>
      Some (None, log [ErrUpdating (message e)] w)
  | AwaitList, RList (Resolved containers) =>
      let (newContainerMap, w) := new_Map w in
      Some (enter_loop newContainerMap containers w)
  | AwaitInspect newContainerMap _ nm rest, RInspect ri =>
      let (m, l) := after_inspect (deref w newContainerMap) nm ri in
      Some (enter_loop newContainerMap rest (log l (store newContainerMap m w)))
  | _, _ => None
  end.

(** [setupDockerEventListener()]: the call of [docker.getEvents]. *)
Definition setupDockerEventListener (w : World) : World :=
  set_subscribing (S (subscribing w)) w.

(** The callback given to [docker.getEvents]. *)
Definition on_getEvents (r : Result nat) (w : World) : World :=
  let w := set_subscribing (pred (subscribing w)) w in
  match r with
  | Rejected err => setTimeout 5000 (log [ErrEventStream (message err)] w)
  | Resolved stream => log [LogListenerStarted] (set_eventStream (Some stream) w)
  end.

Definition relevant (event : Event) : bool :=
  String.eqb (ev_Type event) "container" &&
  (String.eqb (ev_Action event) "start" ||
   String.eqb (ev_Action event) "stop" ||
   String.eqb (ev_Action event) "die").

(** [stream.on("data", ...)]. *)
Definition on_data (chunk : Chunk) (w : World) : World :=
  match chunk with
  | Malformed msg => log [ErrParsingEvent msg] w
  | Parsed event =>
      if relevant event
      then start_pass FromEvent (log [LogContainerEvent (ev_Action event)] w)
      else w
  end.

(** [stream.on("error", ...)]. *)
Definition on_error (streamErr : Error) (w : World) : World :=
  setTimeout 5000 (log [ErrEventStream (message streamErr)] w).

(** [stream.on("end", ...)]. *)
Definition on_end (w : World) : World :=
  setTimeout 1000 (log [WarnStreamEnded] w).

(** The return of [updateRoutes] to its caller: a [data] handler has
    nothing left to do, [init] goes on next. *)
Definition after_pass (caller : Caller) (w : World) : World :=
  match caller with
  | FromEvent => w
  | FromInit => set_initPending true w
  end.

(** The rest of [init], run in one go: [setupDockerEventListener()], then
    the two calls of [listen]. [management] and [proxy] are what these
    calls do at once: return, or throw (a port out of range); a throw is
    caught by the [catch] of [init]. *)
Definition on_init_resumes (management proxy : Result unit) (w : World)
  : World :=
  let w := setupDockerEventListener (set_initPending false w) in
  match management with
  | Rejected err => set_exited (Some 1) (log [ErrInit (message err)] w)
  | Resolved _ =>
      match proxy with
      | Rejected err => set_exited (Some 1) (log [ErrInit (message err)] w)
      | Resolved _ => set_listening true w
      end
  end.

(** The callback given to [listen], called once server [s] is bound. *)
Definition on_listening (s : Server) (w : World) : World :=
  log [LogListening s] w.

(** An [error] event of a started server (the address is in use): no
    listener is registered for it, so it is thrown and ends the process. *)
Definition on_server_error (w : World) : World := set_exited (Some 1) w.

Definition on_resume (i : nat) (r : Response) (w : World) : option World :=
  match nth_error (inflight w) i with
  | None => None
  | Some (p, caller) =>
      match resume p r w with
      | None => None
      | Some (Some p', w') =>
          Some (set_inflight (set_nth i (p', caller) (inflight w')) w')
      | Some (None, w') =>
          Some (after_pass caller (set_inflight (del_nth i (inflight w')) w'))
      end
  end.

(** [init] once [docker.ping()] has settled. *)
Definition on_ping (r : Result unit) (w : World) : World :=
  match r with
  | Rejected err => set_exited (Some 1) (log [ErrInit (message err)] w)
  | Resolved _ => start_pass FromInit (log [LogDockerOk] (set_awaitingPing false w))
  end.

Definition gracefulShutdown (w : World) : World :=
  set_exited (Some 0) (log [LogShutdown] w).

(** What the event loop may run next. [InitResumes] is the rest of
    [init] after [await updateRoutes()], with what the two calls of
    [listen] do at once; it runs right after the step in which the first
    pass returns, before any signal handler. [ServerListening] and
    [ServerError] are the events of a started server. *)
Inductive Label :=
| PingSettled (r : Result unit)
| Resume (i : nat) (r : Response)
| GetEventsCalledBack (r : Result nat)
| StreamData (chunk : Chunk)
| StreamError (e : Error)
| StreamEnd
| TimerFires (d : nat)
| Signal
| InitResumes (management proxy : Result unit)
| ServerListening (s : Server)
| ServerError (s : Server) (e : Error).

Definition is_some {A} (o : option A) : bool :=
  match o with Some _ => true | None => false end.

Definition step (lbl : Label) (w : World) : option World :=
  if is_some (exited w) then None
  else
    match lbl with
    | PingSettled r => if awaitingPing w then Some (on_ping r w) else None
    | Resume i r => on_resume i r w
    | GetEventsCalledBack r =>
        if Nat.ltb 0 (subscribing w) then Some (on_getEvents r w) else None
    | StreamData chunk =>
        if is_some (eventStream w) then Some (on_data chunk w) else None
    | StreamError e =>
        if is_some (eventStream w) then Some (on_error e w) else None
    | StreamEnd =>
        if is_some (eventStream w) then Some (on_end w) else None
    | TimerFires d =>
        if existsb (Nat.eqb d) (timers w)
        then Some (setupDockerEventListener (set_timers (remove_first d (timers w)) w))
        else None
    | Signal => if initPending w then None else Some (gracefulShutdown w)
    | InitResumes management proxy =>
        if initPending w then Some (on_init_resumes management proxy w) else None
    | ServerListening s =>
        if listening w then Some (on_listening s w) else None
    | ServerError s e =>
        if listening w then Some (on_server_error w) else None
    end.

Fixpoint run (lbls : list Label) (w : World) : option World :=
  match lbls with
  | [] => Some w
  | lbl :: rest =>
      match step lbl w with
      | Some w' => run rest w'
      | None => None
      end
  end.

(** The worlds passed through, one after each label. *)
Fixpoint trace (lbls : list Label) (w : World) : option (list World) :=
  match lbls with
  | [] => Some []
  | lbl :: rest =>
      match step lbl w with
      | Some w' => option_map (cons w') (trace rest w')
      | None => None
      end
  end.

(** The process as [init()] leaves it at its first [await]: the one
    [Map] is the empty one [containerMap] is initialised with. *)
Definition boot : World :=
  {| heap := [JsMap.empty]; containerMap := 0; inflight := [];
     awaitingPing := true; subscribing := 0; eventStream := None;
     timers := []; initPending := false; listening := false; exited := None;
     console := [LogStarting] |}.

(** The number of calls of [updateRoutes] so far: each one prints its
    first line once. *)
Definition passes_started (w : World) : nat :=
  length (filter (fun l => match l with LogUpdating => true | _ => false end)
                 (console w)).

(** ** Vocabulary of the properties *)

(** [occurs pat s]: [pat] is a substring of [s]. *)
Fixpoint occurs (pat s : string) : bool :=
  String.prefix pat s ||
  match s with
  | EmptyString => false
  | String _ s' => occurs pat s'
  end.

(** [has_char c s]: the character [c] is in [s]. *)
Fixpoint has_char (c : ascii) (s : string) : bool :=
  match s with
  | EmptyString => false
  | String a s' => Ascii.eqb a c || has_char c s'
  end.

(** A request whose [Host] header is [h]. *)
Definition request_for (h : string) : Request := {| host_header := Some h |}.

(** The available-routes list of the 502 answer. *)
Definition available_routes (containerMap : Table) : list string :=
  map (fun n => (n ++ ".localhost")%string) (JsMap.keys containerMap).

(** What the middleware does for [host] when it looks [key] up. *)
Definition routed_by (containerMap : Table) (host key : string) : Dispatch :=
  match JsMap.get containerMap key with
  | Some e => Forward host (target_of e)
  | None =>
      Respond 502
        (NoRouteBody ("No container mapped for hostname: " ++ host)%string
           (available_routes containerMap))
  end.

(** A listed workload has a name when [Names] is not empty. *)
Definition named (c : ContainerInfo) : Prop := container_name c <> None.

(** The endpoint a listed workload resolves to: none when its inspection
    is rejected or no address is found. *)
Definition endpoint_of (inspect : string -> Result ContainerDetails)
  (c : ContainerInfo) : option Endpoint :=
  match container_name c with
  | None => None
  | Some nm =>
      match inspect (Id c) with
      | Resolved d => resolve nm d
      | Rejected _ => None
      end
  end.

(** The table entries a listing gives rise to, in listing order. *)
Fixpoint entries (inspect : string -> Result ContainerDetails)
  (cs : list ContainerInfo) : list (string * Endpoint) :=
  match cs with
  | [] => []
  | c :: rest =>
      match container_name c, endpoint_of inspect c with
      | Some nm, Some e => (nm, e) :: entries inspect rest
      | _, _ => entries inspect rest
      end
  end.

(** [m.set] applied to each entry in turn. *)
Definition set_all (m : Table) (es : list (string * Endpoint)) : Table :=
  fold_left (fun m ke => JsMap.set m (fst ke) (snd ke)) es m.

(** A network without a usable address. *)
Definition no_address (kn : string * Network) : Prop :=
  Js.truthy (net_IPAddress (snd kn)) = false.

(** What [inspect] yields for a workload whose JSON description gives
    the primary address [primary] and lists the attached networks
    [reported], in this order. *)
Definition inspected (primary : option string)
  (reported : list (string * Network)) (config : ConfigT) : ContainerDetails :=
  {| NetworkSettings := {| IPAddress := primary;
                           Networks := Some (JsObject.parsed reported) |};
     Config := config |}.

(** The attached networks are scanned in the order they are reported:
    without a primary address, the resolved address is the first
    non-empty one in that order. *)
Definition scans_in_reported_order : Prop :=
  forall (nm : string) (primary : option string) (config : ConfigT)
         (before after : list (string * Network)) (k : string) (n : Network)
         (a : string),
    Js.truthy primary = false ->
    Forall no_address before ->
    net_IPAddress n = Some a -> a <> ""%string ->
    exists e,
      resolve nm (inspected primary (before ++ (k, n) :: after) config) = Some e
      /\ ip e = a.

(** The order of two properties named by array indices. *)
Definition index_le {V} (x y : N * (string * V)) : Prop := N.le (fst x) (fst y).

(** A property whose name is not an array index. *)
Definition plain_name {V} (kv : string * V) : Prop :=
  JsObject.array_index (fst kv) = None.

(** The [Map] a suspended pass is filling, once it has created one. *)
Definition pass_ref (p : Pass) : list Ref :=
  match p with
  | AwaitList => []
  | AwaitInspect r _ _ _ => [r]
  end.

Definition refs (l : list (Pass * Caller)) : list Ref :=
  flat_map (fun pc => pass_ref (fst pc)) l.

(** The maps being filled are existing objects, distinct from one another
    and from the one [containerMap] refers to. *)
Definition separate (w : World) : Prop :=
  containerMap w < length (heap w)
  /\ Forall (fun r => r < length (heap w)) (refs (inflight w))
  /\ ~ In (containerMap w) (refs (inflight w))
  /\ NoDup (refs (inflight w)).

(** The step from [w] to [w'] under [lbl] is the last one of a pass: the
    pass has no listed workload left and [containerMap] is made to refer
    to the map the pass has filled. *)
Definition installs (w : World) (lbl : Label) (w' : World) : Prop :=
  exists i r p caller,
    lbl = Resume i r
    /\ nth_error (inflight w) i = Some (p, caller)
    /\ containerMap w' <> containerMap w
    /\ match p with
       | AwaitList =>
           r = RList (Resolved [])
           /\ containerMap w' = length (heap w)
           /\ table w' = JsMap.empty
       | AwaitInspect ref _ nm rest =>
           rest = []
           /\ containerMap w' = ref
           /\ exists ri, r = RInspect ri
                         /\ table w' = fst (after_inspect (deref w ref) nm ri)
       end.

(** The labels under which pass [i] runs over the listing [cs], nothing
    else running in between. *)
Definition pass_labels (inspect : string -> Result ContainerDetails)
  (i : nat) (cs : list ContainerInfo) : list Label :=
  Resume i (RList (Resolved cs))
  :: map (fun c => Resume i (RInspect (inspect (Id c)))) cs.

(** The answer to an [inspect] is the one [inspect] gives for the
    workload the pass is at. *)
Definition answered_by (inspect : string -> Result ContainerDetails)
  (lbl : Label) (w : World) : Prop :=
  match lbl with
  | Resume i (RInspect ri) =>
      forall ref c nm rest caller,
        nth_error (inflight w) i = Some (AwaitInspect ref c nm rest, caller) ->
        ri = inspect (Id c)
  | _ => True
  end.

(** All the [inspect] answers along a run are those of [inspect]. *)
Fixpoint follows (inspect : string -> Result ContainerDetails)
  (lbls : list Label) (w : World) : Prop :=
  match lbls with
  | [] => True
  | lbl :: rest =>
      answered_by inspect lbl w
      /\ match step lbl w with
         | Some w' => follows inspect rest w'
         | None => True
         end
  end.

(** The listings the runtime has delivered along a run. *)
Definition listings (lbls : list Label) : list (list ContainerInfo) :=
  flat_map (fun lbl => match lbl with
                       | Resume _ (RList (Resolved cs)) => [cs]
                       | _ => []
                       end) lbls.

(** [t] is the empty table the process starts with, or the whole table
    that the loop of [updateRoutes] builds for one of the listings. *)
Definition whole_table (inspect : string -> Result ContainerDetails)
  (delivered : list (list ContainerInfo)) (t : Table) : Prop :=
  t = JsMap.empty
  \/ exists cs, In cs delivered /\ fst (loop inspect JsMap.empty cs) = Some t.

(** A pass inside the loop will end as the loop over its whole listing
    ends. *)
Definition on_course (inspect : string -> Result ContainerDetails)
  (delivered : list (list ContainerInfo)) (w : World) (pc : Pass * Caller)
  : Prop :=
  match fst pc with
  | AwaitList => True
  | AwaitInspect ref c nm rest =>
      container_name c = Some nm
      /\ exists cs, In cs delivered
                    /\ fst (loop inspect (deref w ref) (c :: rest))
                       = fst (loop inspect JsMap.empty cs)
  end.

(** What holds of the table and of the passes in flight in every state of
    a run whose [inspect] answers are those of [inspect]. *)
Definition coherent (inspect : string -> Result ContainerDetails)
  (delivered : list (list ContainerInfo)) (w : World) : Prop :=
  separate w
  /\ whole_table inspect delivered (table w)
  /\ Forall (on_course inspect delivered w) (inflight w).

(** The states the process can be in. *)
Definition reachable (w : World) : Prop := exists lbls, run lbls boot = Some w.

(** The chunks of a stream that [JSON.parse] turns into one [start],
    [stop] or [die] event of a container. *)
Definition triggers (chunk : Chunk) : bool :=
  match chunk with
  | Parsed event => relevant event
  | Malformed _ => false
  end.

(** Mutual exclusion of passes, as a property of the event loop. *)
Definition one_pass_at_a_time : Prop :=
  forall w, reachable w -> length (inflight w) <= 1.

(** Coalescing, as a property of the event loop: the events that arrive
    while one pass is in progress start at most one more pass. *)
Definition coalesces : Prop :=
  forall w chunks w',
    reachable w ->
    length (inflight w) = 1 ->
    forallb triggers chunks = true ->
    run (map StreamData chunks) w = Some w' ->
    passes_started w' <= passes_started w + 1.

(** An uncaught failure of the forwarding path answered with a 502, as a
    property of the proxy application. *)
Definition uncaught_failure_gets_502 : Prop :=
  forall cm req host target e,
    fst (dispatch cm req) = Forward host target ->
    exists body, fst (proxyApp cm req (Raised e)) = Json 502 body.

(** The ways the event feed is lost, and what the event loop runs from
    the callback of [getEvents] to the reconnection timer. *)
Inductive FeedFailure :=
| SubscribeFails (e : Error)
| StreamFails (stream : nat) (e : Error)
| StreamEnds (stream : nat).

Definition backoff (f : FeedFailure) : nat :=
  match f with
  | SubscribeFails _ => 5000
  | StreamFails _ _ => 5000
  | StreamEnds _ => 1000
  end.

Definition failure_round (f : FeedFailure) : list Label :=
  match f with
  | SubscribeFails e =>
      [GetEventsCalledBack (Rejected e); TimerFires (backoff f)]
  | StreamFails s e =>
      [GetEventsCalledBack (Resolved s); StreamError e; TimerFires (backoff f)]
  | StreamEnds s =>
      [GetEventsCalledBack (Resolved s); StreamEnd; TimerFires (backoff f)]
  end.

(** The entries of the [/routes] answer: host name and target. *)
Definition route_entries (containerMap : Table) : list (string * string) :=
  map (fun c => ((name c ++ ".localhost")%string, target_of c))
      (JsMap.values containerMap).

(** An entry as a pass writes it: stored under its own name, with an
    address and a port that are not empty, the port without a slash. *)
Definition entry_ok (ke : string * Endpoint) : Prop :=
  name (snd ke) = fst ke
  /\ ip (snd ke) <> ""
  /\ port (snd ke) <> ""
  /\ has_char "/" (port (snd ke)) = false.

Definition table_ok (t : Table) : Prop :=
  NoDup (JsMap.keys t) /\ Forall entry_ok t.

(** The endpoint of the last listed workload of name [n] that resolves. *)
Fixpoint last_resolved (inspect : string -> Result ContainerDetails)
  (n : string) (cs : list ContainerInfo) : option Endpoint :=
  match cs with
  | [] => None
  | c :: rest =>
      match last_resolved inspect n rest with
      | Some e => Some e
      | None =>
          match container_name c with
          | Some m => if String.eqb m n then endpoint_of inspect c else None
          | None => None
          end
      end
  end.

(** The ways a held stream is lost, and the delay of the timer each
    sets. *)
Inductive StreamLoss :=
| LossError (e : Error)
| LossEnd.

Definition loss_label (l : StreamLoss) : Label :=
  match l with
  | LossError e => StreamError e
  | LossEnd => StreamEnd
  end.

Definition loss_delay (l : StreamLoss) : nat :=
  match l with
  | LossError _ => 5000
  | LossEnd => 1000
  end.



(* ================================================================== *)
(** * Part II: properties                                              *)
(* ================================================================== *)

(** ** The program on small inputs *)

Example request_host_strips_port :
  request_host (request_for "api.localhost:8080") = Some "api.localhost".
Proof. reflexivity. Qed.

Example container_key_of_host : container_key "api.localhost" = "api".
Proof. reflexivity. Qed.

Example container_name_drops_slash :
  container_name {| Id := "3f4e"; Names := ["/nginx"] |} = Some "nginx".
Proof. reflexivity. Qed.

Example port_of_first_exposed :
  select_port {| NetworkSettings := {| IPAddress := Some "172.17.0.2";
                                       Networks := None |};
                 Config := {| ExposedPorts := Some [("8080/tcp", tt)] |} |}
  = "8080".
Proof. reflexivity. Qed.

Example map_set_replaces_in_place :
  JsMap.keys (JsMap.set (JsMap.set (JsMap.set JsMap.empty "a" 1) "b" 2) "a" 3)
  = ["a"; "b"].
Proof. reflexivity. Qed.

(** Two passes in flight at once, started by two events: the first gets
    the listing [a; b], the second the listing [a]; their [inspect]s
    settle in turn. The table is empty until the second pass ends and
    installs [a], and is [a; b] once the first has ended. *)
Example two_passes_interleaved :
  let ok := Resolved {| NetworkSettings := {| IPAddress := Some "172.17.0.2";
                                              Networks := None |};
                        Config := {| ExposedPorts := None |} |} in
  let a := {| Id := "id-a"; Names := ["/a"] |} in
  let b := {| Id := "id-b"; Names := ["/b"] |} in
  let start := StreamData (Parsed {| ev_Type := "container"; ev_Action := "start" |}) in
  option_map (map (fun w => JsMap.keys (table w)))
    (trace [PingSettled (Resolved tt); Resume 0 (RList (Resolved []));
            InitResumes (Resolved tt) (Resolved tt);
            GetEventsCalledBack (Resolved 1); start; start;
            Resume 0 (RList (Resolved [a; b])); Resume 1 (RList (Resolved [a]));
            Resume 0 (RInspect ok); Resume 1 (RInspect ok);
            Resume 0 (RInspect ok)] boot)
  = Some [[]; []; []; []; []; []; []; []; []; ["a"]; ["a"; "b"]].
Proof. reflexivity. Qed.

(** [Object.keys] of a parsed object: array indices in ascending order,
    then the other names as created; a repeated name keeps its place. *)
Example keys_of_parsed_object :
  Js.keys (JsObject.parsed [("10", 1); ("b", 2); ("2", 3); ("01", 4); ("b", 5)])
  = ["2"; "10"; "b"; "01"].
Proof. reflexivity. Qed.

(** The console of a forwarded request whose upstream refuses the
    connection. *)
Example refused_connection :
  proxyApp [("nginx", {| name := "nginx"; ip := "172.17.0.2"; port := "80" |})]
    (request_for "nginx.localhost")
    (ProxyError {| message := "connect ECONNREFUSED" |} false)
  = (Json 502 (ProxyErrorBody "Proxy error" "http://172.17.0.2:80"
                 "connect ECONNREFUSED"),
     [LogProxying "nginx.localhost" "http://172.17.0.2:80";
      LogProxyReq "http://172.17.0.2:80";
      ErrProxy "nginx.localhost" "connect ECONNREFUSED"]).
Proof. reflexivity. Qed.

(** A port out of range: [init] ends the process with code 1 after the
    first pass has installed its table and [getEvents] was called. *)
Example listen_throws :
  let ok := Resolved {| NetworkSettings := {| IPAddress := Some "172.17.0.2";
                                              Networks := None |};
                        Config := {| ExposedPorts := None |} |} in
  let a := {| Id := "id-a"; Names := ["/a"] |} in
  option_map (fun w => (exited w, JsMap.keys (table w), subscribing w,
                        listening w))
    (run [PingSettled (Resolved tt); Resume 0 (RList (Resolved [a]));
          Resume 0 (RInspect ok);
          InitResumes (Rejected {| message := "options.port should be >= 0 and < 65536" |})
                      (Resolved tt)] boot)
  = Some (Some 1, ["a"], 1, false).
Proof. vm_compute. reflexivity. Qed.

(** ** Strings *)

Section StringFacts.

Local Open Scope string_scope.

Lemma prefix_app (pat r : string) : String.prefix pat (pat ++ r) = true.
Proof.
  induction pat as [|a pat IH]; simpl.
  - destruct r; reflexivity.
  - destruct (ascii_dec a a); [exact IH | congruence].
Qed.

Lemma prefix_inv (pat s : string) :
  String.prefix pat s = true -> exists r, s = pat ++ r.
Proof.
  revert s; induction pat as [|a pat IH]; intros s H.
  - exists s; reflexivity.
  - destruct s as [|b s]; simpl in H; [discriminate|].
    destruct (ascii_dec a b) as [->|]; [|discriminate].
    destruct (IH _ H) as [r ->]. exists r; reflexivity.
Qed.

Lemma drop_app (pat r : string) : Js.drop (String.length pat) (pat ++ r) = r.
Proof. induction pat; simpl; auto. Qed.

Lemma append_assoc (a b c : string) : (a ++ b) ++ c = a ++ b ++ c.
Proof. induction a; simpl; congruence. Qed.

Lemma append_empty_r (a : string) : a ++ "" = a.
Proof. induction a; simpl; congruence. Qed.

Lemma replace_eq (pat rep s : string) :
  Js.replace pat rep s =
  if String.prefix pat s then rep ++ Js.drop (String.length pat) s
  else match s with
       | EmptyString => EmptyString
       | String a s' => String a (Js.replace pat rep s')
       end.
Proof. destruct s; reflexivity. Qed.

Lemma occurs_eq (pat s : string) :
  occurs pat s =
  String.prefix pat s ||
  match s with
  | EmptyString => false
  | String _ s' => occurs pat s'
  end.
Proof. destruct s; reflexivity. Qed.

(** [occurs] decides substring occurrence. *)
Lemma occurs_spec (pat s : string) :
  occurs pat s = true <-> exists a b, s = a ++ pat ++ b.
Proof.
  split.
  - induction s as [|c s IH]; rewrite occurs_eq; intros H.
    + rewrite orb_false_r in H. apply prefix_inv in H as [r ->].
      exists "", r; reflexivity.
    + apply orb_true_iff in H as [H|H].
      * apply prefix_inv in H as [r ->]. exists "", r; reflexivity.
      * destruct (IH H) as (a & b & ->). exists (String c a), b; reflexivity.
  - intros (a & b & ->). induction a as [|c a IH].
    + change ("" ++ pat ++ b) with (pat ++ b).
      rewrite occurs_eq, prefix_app. reflexivity.
    + change (String c a ++ pat ++ b) with (String c (a ++ pat ++ b)).
      rewrite occurs_eq, IH. apply orb_true_r.
Qed.

Lemma occurs_cons (pat : string) (c : ascii) (s : string) :
  occurs pat (String c s) = false ->
  String.prefix pat (String c s) = false /\ occurs pat s = false.
Proof. rewrite occurs_eq. intros H. apply orb_false_iff in H. exact H. Qed.

(** Without an occurrence of the pattern, [replace] is the identity. *)
Lemma replace_absent (pat rep s : string) :
  occurs pat s = false -> Js.replace pat rep s = s.
Proof.
  induction s as [|c s IH]; rewrite occurs_eq, replace_eq; intros H;
    apply orb_false_iff in H as [Hp Ho]; rewrite Hp.
  - reflexivity.
  - rewrite (IH Ho). reflexivity.
Qed.

(** When the pattern does not start inside [a], its occurrence right
    after [a] is the one replaced, and nothing after it is touched. *)
Lemma replace_first_occurrence (pat rep a b : string) :
  (forall a1 c a2, a = a1 ++ String c a2 ->
     String.prefix pat (String c a2 ++ pat ++ b) = false) ->
  Js.replace pat rep (a ++ pat ++ b) = a ++ rep ++ b.
Proof.
  induction a as [|c a IH]; intros H.
  - change ("" ++ pat ++ b) with (pat ++ b).
    rewrite replace_eq, prefix_app, drop_app. reflexivity.
  - rewrite replace_eq, (H "" c a eq_refl).
    change (String c a ++ pat ++ b) with (String c (a ++ pat ++ b)).
    change (String c a ++ rep ++ b) with (String c (a ++ rep ++ b)).
    cbv iota. f_equal. apply IH.
    intros a1 c' a2 ->. apply (H (String c a1) c' a2). reflexivity.
Qed.

Lemma split0_sep (c : ascii) (x p : string) :
  Js.split0 c (x ++ String c p) = Js.split0 c x.
Proof.
  induction x as [|a x IH]; simpl.
  - rewrite Ascii.eqb_refl. reflexivity.
  - destruct (Ascii.eqb a c); [reflexivity | rewrite IH; reflexivity].
Qed.

Lemma split0_absent (c : ascii) (s : string) :
  has_char c s = false -> Js.split0 c s = s.
Proof.
  induction s as [|a s IH]; simpl; intros H; [reflexivity|].
  apply orb_false_iff in H as [-> H]. rewrite (IH H). reflexivity.
Qed.

End StringFacts.

(** ** The suffix [.localhost] *)

Section Localhost.

Local Open Scope string_scope.

Lemma prefix_cons (a b : ascii) (p s : string) :
  String.prefix (String a p) (String b s) =
  if ascii_dec a b then String.prefix p s else false.
Proof. reflexivity. Qed.

Lemma occurs_suffix (pat a s : string) :
  occurs pat (a ++ s) = false -> occurs pat s = false.
Proof.
  induction a as [|c a IH]; intros H; [exact H|].
  change (String c a ++ s) with (String c (a ++ s)) in H.
  apply occurs_cons in H as [_ H]. auto.
Qed.

Ltac peel t H :=
  destruct t as [|? t];
  [ first [ congruence
          | cbn [append] in H; rewrite prefix_cons in H;
            match type of H with
            | (if ?d then _ else _) = _ =>
                destruct d as [E|]; [discriminate E | discriminate H]
            end ]
  | change (String ?c t ++ ?r) with (String c (t ++ r)) in H;
    rewrite prefix_cons in H;
    match type of H with
    | (if ?d then _ else _) = _ => destruct d as [<-|]; [|discriminate H]
    end ].

(** [.localhost] does not overlap itself: an occurrence that starts
    inside [t] and matches [t ++ ".localhost" ++ b] lies within [t]. *)
Lemma localhost_no_border (t b : string) :
  t <> "" ->
  String.prefix ".localhost" (t ++ ".localhost" ++ b) = true ->
  String.prefix ".localhost" t = true.
Proof.
  intros Hne H.
  do 10 (peel t H).
  apply (prefix_app ".localhost" t).
Qed.

Lemma container_key_strip (a b : string) :
  occurs ".localhost" a = false ->
  container_key (a ++ ".localhost" ++ b) = a ++ b.
Proof.
  intros Ha. unfold container_key.
  rewrite replace_first_occurrence; [reflexivity|].
  intros a1 c a2 ->.
  destruct (String.prefix ".localhost" (String c a2 ++ ".localhost" ++ b))
    eqn:E; [|reflexivity].
  apply localhost_no_border in E; [|discriminate].
  apply occurs_suffix in Ha. apply occurs_cons in Ha as [Hp _].
  congruence.
Qed.

Lemma container_key_suffix (nm : string) :
  occurs ".localhost" nm = false -> container_key (nm ++ ".localhost") = nm.
Proof.
  intros H. rewrite <- (append_empty_r (nm ++ ".localhost")), append_assoc.
  rewrite (container_key_strip nm "" H). apply append_empty_r.
Qed.

Lemma container_key_bare (host : string) :
  occurs ".localhost" host = false -> container_key host = host.
Proof. apply replace_absent. Qed.

End Localhost.

(** ** The table as a [Map] *)

Section MapFacts.

Context {V : Type}.

Lemma get_keys (m : JsMap.t V) (k : string) :
  In k (JsMap.keys m) <-> JsMap.get m k <> None.
Proof.
  induction m as [|[k' v] m IH]; simpl.
  - split; [tauto | congruence].
  - destruct (String.eqb_spec k' k) as [->|Hne].
    + split; [discriminate | auto].
    + rewrite <- IH. split; [intros [?|?]; [contradiction | assumption] | auto].
Qed.

Lemma get_set_same (m : JsMap.t V) (k : string) (v : V) :
  JsMap.get (JsMap.set m k v) k = Some v.
Proof.
  induction m as [|[k' v'] m IH]; simpl.
  - rewrite String.eqb_refl. reflexivity.
  - destruct (String.eqb_spec k' k) as [->|Hne]; simpl.
    + rewrite String.eqb_refl. reflexivity.
    + destruct (String.eqb_spec k' k); [contradiction | exact IH].
Qed.

Lemma get_set_other (m : JsMap.t V) (k k' : string) (v : V) :
  k <> k' -> JsMap.get (JsMap.set m k v) k' = JsMap.get m k'.
Proof.
  intros Hne. induction m as [|[k0 v0] m IH]; simpl.
  - destruct (String.eqb_spec k k'); [contradiction | reflexivity].
  - destruct (String.eqb_spec k0 k) as [->|]; simpl.
    + destruct (String.eqb_spec k k'); [contradiction | reflexivity].
    + rewrite IH. reflexivity.
Qed.

End MapFacts.

(** ** The proxy middleware *)

Section DispatchFacts.

Local Open Scope string_scope.

Lemma string_length_app (a b : string) :
  String.length (a ++ b) = String.length a + String.length b.
Proof. induction a; simpl; auto. Qed.

Lemma append_cancel_r (a b s : string) : a ++ s = b ++ s -> a = b.
Proof.
  revert b; induction a as [|c a IH]; intros [|d b] H; simpl in H.
  - reflexivity.
  - apply (f_equal String.length) in H. simpl in H. rewrite string_length_app in H. lia.
  - apply (f_equal String.length) in H. simpl in H. rewrite string_length_app in H. lia.
  - injection H as -> H. f_equal. auto.
Qed.

Lemma available_routes_spec (cm : Table) (n : string) :
  In (n ++ ".localhost") (available_routes cm) <-> JsMap.get cm n <> None.
Proof.
  rewrite <- get_keys. unfold available_routes. rewrite in_map_iff. split.
  - intros (n' & E & Hin). apply append_cancel_r in E. congruence.
  - intros Hin. exists n. auto.
Qed.

(** The middleware on a request whose port-stripped host is not empty. *)
Lemma dispatch_host (cm : Table) (hdr : string) :
  Js.split0 ":" hdr <> "" ->
  dispatch cm (request_for hdr) =
  let host := Js.split0 ":" hdr in
  (routed_by cm host (container_key host),
   match JsMap.get cm (container_key host) with
   | Some e => [LogProxying host (target_of e)]
   | None => [WarnNoRoute host]
   end).
Proof.
  intros Hne. unfold dispatch, request_for, request_host, routed_by. simpl.
  destruct (Js.split0 ":" hdr) as [|c h]; [contradiction|]. simpl.
  destruct (JsMap.get cm (container_key (String c h))); reflexivity.
Qed.

Lemma dispatch_port (cm : Table) (h p : string) :
  dispatch cm (request_for (h ++ ":" ++ p)) = dispatch cm (request_for h).
Proof.
  unfold dispatch, request_for, request_host. simpl option_map.
  change (h ++ ":" ++ p) with (h ++ String ":" p).
  rewrite split0_sep. reflexivity.
Qed.

Lemma has_char_app (c : ascii) (a b : string) :
  has_char c (a ++ b) = has_char c a || has_char c b.
Proof. induction a; simpl; [reflexivity|]. rewrite IHa. apply orb_assoc. Qed.

End DispatchFacts.

Section DispatchProperties.

Local Open Scope string_scope.

(** C6: Unknown-name dispatch outcome: when the name extracted from a
    request is not a key of the current table, the middleware forwards
    nothing (whatever the proxy would have done) and answers 502 with a
    JSON body whose [error] ends with the requested host and whose
    [availableRoutes] lists exactly the known names, each with the
    [.localhost] suffix; on the empty table that list is empty. *)
Theorem unknown_name_gets_502 (cm : Table) (hdr : string) (po : ProxyOutcome) :
  Js.split0 ":" hdr <> "" ->
  JsMap.get cm (container_key (Js.split0 ":" hdr)) = None ->
  let host := Js.split0 ":" hdr in
  let body := NoRouteBody ("No container mapped for hostname: " ++ host)
                          (available_routes cm) in
  dispatch cm (request_for hdr) = (Respond 502 body, [WarnNoRoute host])
  /\ proxyApp cm (request_for hdr) po = (Json 502 body, [WarnNoRoute host])
  /\ (forall n, In (n ++ ".localhost") (available_routes cm)
                <-> JsMap.get cm n <> None)
  /\ length (available_routes cm) = JsMap.size cm
  /\ available_routes JsMap.empty = [].
Proof.
  intros Hne Hget host body.
  assert (E : dispatch cm (request_for hdr)
              = (Respond 502 body, [WarnNoRoute host])).
  { subst host body. rewrite dispatch_host by exact Hne. cbv zeta.
    unfold routed_by. rewrite Hget. reflexivity. }
  split; [exact E|]. split.
  - unfold proxyApp. rewrite E. reflexivity.
  - split; [apply available_routes_spec|]. split; [|reflexivity].
    unfold available_routes, JsMap.keys, JsMap.size.
    rewrite !length_map. reflexivity.
Qed.

Lemma unknown_name_gets_502_witness :
  proxyApp JsMap.empty (request_for "ghost.localhost") (Upstream 200)
  = (Json 502 (NoRouteBody "No container mapped for hostname: ghost.localhost" []),
     [WarnNoRoute "ghost.localhost"]).
Proof.
  apply (unknown_name_gets_502 JsMap.empty "ghost.localhost" (Upstream 200));
    [discriminate | reflexivity].
Defined.

(** C7: Host normalization and missing-host rejection: the middleware
    answers a request for [<name>.localhost:<port>] exactly as it answers
    one for [<name>.localhost], for every name; when the name has neither
    a colon nor [.localhost] inside, the key looked up is the name itself;
    and a request without a host header is answered 400 at once, whatever
    the table holds and whatever the proxy would do. *)
Theorem host_normalization (cm : Table) (nm p : string) (po : ProxyOutcome) :
  dispatch cm (request_for ((nm ++ ".localhost") ++ ":" ++ p))
    = dispatch cm (request_for (nm ++ ".localhost"))
  /\ proxyApp cm (request_for ((nm ++ ".localhost") ++ ":" ++ p)) po
    = proxyApp cm (request_for (nm ++ ".localhost")) po
  /\ (has_char ":" nm = false -> occurs ".localhost" nm = false ->
      fst (dispatch cm (request_for ((nm ++ ".localhost") ++ ":" ++ p)))
        = routed_by cm (nm ++ ".localhost") nm)
  /\ dispatch cm {| host_header := None |}
      = (Respond 400 (ErrorBody "No host header provided"), [])
  /\ proxyApp cm {| host_header := None |} po
      = (Json 400 (ErrorBody "No host header provided"), []).
Proof.
  split; [apply dispatch_port|]. split.
  { unfold proxyApp. rewrite dispatch_port. reflexivity. }
  split; [|split; reflexivity].
  intros Hc Ho. rewrite dispatch_port.
  assert (Hs : Js.split0 ":" (nm ++ ".localhost") = nm ++ ".localhost").
  { apply split0_absent. rewrite has_char_app, Hc. reflexivity. }
  rewrite dispatch_host; rewrite Hs.
  - cbv zeta. cbn [fst]. rewrite container_key_suffix by exact Ho. reflexivity.
  - destruct nm; discriminate.
Qed.

Lemma host_normalization_witness :
  fst (dispatch [("api", {| name := "api"; ip := "172.17.0.3"; port := "3000" |})]
         (request_for "api.localhost:8080"))
  = Forward "api.localhost" "http://172.17.0.3:3000".
Proof.
  pose proof (host_normalization
    [("api", {| name := "api"; ip := "172.17.0.3"; port := "3000" |})]
    "api" "8080" (Upstream 200)) as (_ & _ & H & _).
  apply H; reflexivity.
Defined.

(** C10: The middleware deletes the first occurrence of [.localhost]
    from the port-stripped host, wherever it is: a host without
    [.localhost] is looked up as it is, so a bare name reaches the same
    entry as its [<name>.localhost] form, and a host with [.localhost]
    in the middle is looked up with that first occurrence alone
    deleted. *)
Theorem first_localhost_occurrence_removed (cm : Table) (a b : string) :
  occurs ".localhost" a = false ->
  has_char ":" a = false ->
  has_char ":" b = false ->
  container_key a = a
  /\ container_key (a ++ ".localhost") = a
  /\ container_key (a ++ ".localhost" ++ b) = a ++ b
  /\ (a <> "" -> fst (dispatch cm (request_for a)) = routed_by cm a a)
  /\ fst (dispatch cm (request_for (a ++ ".localhost")))
       = routed_by cm (a ++ ".localhost") a
  /\ fst (dispatch cm (request_for (a ++ ".localhost" ++ b)))
       = routed_by cm (a ++ ".localhost" ++ b) (a ++ b).
Proof.
  intros Ho Ha Hb.
  pose proof (container_key_bare a Ho) as K1.
  pose proof (container_key_suffix a Ho) as K2.
  pose proof (container_key_strip a b Ho) as K3.
  repeat split; try assumption.
  - intros Hne. rewrite dispatch_host; rewrite (split0_absent _ _ Ha);
      [cbv zeta; cbn [fst]; rewrite K1; reflexivity | exact Hne].
  - assert (Hs : Js.split0 ":" (a ++ ".localhost") = a ++ ".localhost").
    { apply split0_absent. rewrite has_char_app, Ha. reflexivity. }
    rewrite dispatch_host; rewrite Hs;
      [cbv zeta; cbn [fst]; rewrite K2; reflexivity | destruct a; discriminate].
  - assert (Hs : Js.split0 ":" (a ++ ".localhost" ++ b) = a ++ ".localhost" ++ b).
    { apply split0_absent. rewrite !has_char_app, Ha, Hb. reflexivity. }
    rewrite dispatch_host; rewrite Hs;
      [cbv zeta; cbn [fst]; rewrite K3; reflexivity | destruct a; discriminate].
Qed.

Lemma first_localhost_occurrence_removed_witness :
  container_key "web.localhost.localhost" = "web.localhost"
  /\ fst (dispatch [("nginx", {| name := "nginx"; ip := "172.17.0.2"; port := "80" |})]
            (request_for "nginx"))
     = Forward "nginx" "http://172.17.0.2:80".
Proof.
  split.
  - apply (first_localhost_occurrence_removed [] "web" ".localhost");
      reflexivity.
  - apply (first_localhost_occurrence_removed
             [("nginx", {| name := "nginx"; ip := "172.17.0.2"; port := "80" |})]
             "nginx" ""); [reflexivity .. | discriminate].
Defined.

End DispatchProperties.

(** ** Endpoint resolution *)

Section ResolverFacts.

Lemma truthy_some (a : string) : Js.truthy (Some a) = true <-> a <> "".
Proof. destruct a; simpl; split; congruence. Qed.

Lemma scan_networks_first (before after : Js.Obj Network) k n :
  Forall no_address before ->
  Js.truthy (net_IPAddress n) = true ->
  scan_networks (before ++ (k, n) :: after) = net_IPAddress n.
Proof.
  intros Hb Hn. induction Hb as [|[k' n'] before Hk _ IH]; simpl.
  - rewrite Hn. reflexivity.
  - unfold no_address in Hk. simpl in Hk. rewrite Hk. exact IH.
Qed.

Lemma scan_networks_none (nets : Js.Obj Network) :
  Forall no_address nets -> scan_networks nets = None.
Proof.
  induction 1 as [|[k n] nets Hk _ IH]; simpl; [reflexivity|].
  unfold no_address in Hk. simpl in Hk. rewrite Hk. exact IH.
Qed.

Lemma resolve_with_ip (nm : string) (d : ContainerDetails) (a : string) :
  select_ip d = Some a -> a <> "" ->
  resolve nm d = Some {| name := nm; ip := a; port := select_port d |}.
Proof.
  intros E Ha. unfold resolve. rewrite E.
  apply truthy_some in Ha. rewrite Ha. reflexivity.
Qed.

Lemma resolve_port (nm : string) (d : ContainerDetails) (e : Endpoint) :
  resolve nm d = Some e -> name e = nm /\ port e = select_port d.
Proof.
  unfold resolve. destruct (negb (Js.truthy (select_ip d))); [discriminate|].
  destruct (select_ip d); [|discriminate].
  intros [= <-]. split; reflexivity.
Qed.

Lemma or_else_nonempty (s d : string) : s <> "" -> Js.or_else (Some s) d = s.
Proof. destruct s; [congruence | reflexivity]. Qed.

End ResolverFacts.

(** ** The order of the keys of a parsed object *)

Section KeyOrder.

Context {V : Type}.

Lemma object_get_absent (m : JsMap.t V) (k : string) :
  ~ In k (map fst m) -> JsMap.get m k = None.
Proof.
  induction m as [|[k' v'] m IH]; simpl; intros H; [reflexivity|].
  destruct (String.eqb k' k) eqn:E.
  - apply String.eqb_eq in E. elim H. auto.
  - apply IH. intros Hin. apply H. auto.
Qed.

Lemma object_set_absent (m : JsMap.t V) (k : string) (v : V) :
  JsMap.get m k = None -> JsMap.set m k v = m ++ [(k, v)].
Proof.
  induction m as [|[k' v'] m IH]; simpl; intros H; [reflexivity|].
  destruct (String.eqb k' k); [discriminate|]. rewrite IH by exact H.
  reflexivity.
Qed.

Lemma fold_set_distinct (members acc : list (string * V)) :
  NoDup (map fst acc ++ map fst members) ->
  fold_left (fun o kv => JsMap.set o (fst kv) (snd kv)) members acc
  = acc ++ members.
Proof.
  revert acc. induction members as [|[k v] members IH]; intros acc H; simpl.
  - symmetry. apply app_nil_r.
  - simpl in H. rewrite object_set_absent.
    + rewrite IH.
      * rewrite <- app_assoc. reflexivity.
      * rewrite map_app. simpl. rewrite <- app_assoc. exact H.
    + apply object_get_absent. apply NoDup_remove_2 in H.
      intros Hin. apply H. apply in_or_app. auto.
Qed.

(** Members with pairwise distinct names become properties in the order
    of the text. *)
Lemma properties_distinct (members : list (string * V)) :
  NoDup (map fst members) -> JsObject.properties members = members.
Proof.
  intros H. unfold JsObject.properties. rewrite fold_set_distinct; auto.
Qed.

Lemma insert_sorted (n : N) (kv : string * V) (l : list (N * (string * V))) :
  Sorted index_le l -> Sorted index_le (JsObject.insert n kv l).
Proof.
  induction 1 as [|[m kv'] l Hs IH Hd]; simpl.
  - repeat constructor.
  - destruct (N.ltb n m) eqn:E.
    + apply N.ltb_lt in E. constructor; [constructor; assumption|].
      constructor. unfold index_le. simpl. lia.
    + apply N.ltb_ge in E. constructor; [exact IH|].
      destruct l as [|[m' kv''] l']; simpl.
      * constructor. exact E.
      * destruct (N.ltb n m'); constructor; [exact E|].
        inversion Hd; assumption.
Qed.

Lemma indexed_sorted (props : list (string * V)) :
  Sorted index_le (JsObject.indexed props).
Proof.
  induction props as [|kv props IH]; simpl; [constructor|].
  destruct (JsObject.array_index (fst kv)); [|exact IH].
  apply insert_sorted. exact IH.
Qed.

Lemma insert_in (n : N) (kv : string * V) (l : list (N * (string * V))) x :
  In x (JsObject.insert n kv l) <-> x = (n, kv) \/ In x l.
Proof.
  induction l as [|[m kv'] l IH]; simpl.
  - split; intros [H|H]; auto.
  - destruct (N.ltb n m); simpl; [|rewrite IH]; split; intros H;
      intuition auto.
Qed.

(** The indexed properties are those named by an array index, each with
    its index. *)
Lemma indexed_in (props : list (string * V)) (n : N) (kv : string * V) :
  In (n, kv) (JsObject.indexed props) <->
  In kv props /\ JsObject.array_index (fst kv) = Some n.
Proof.
  induction props as [|kv' props IH]; simpl; [tauto|].
  destruct (JsObject.array_index (fst kv')) as [m|] eqn:E.
  - rewrite insert_in, IH. split.
    + intros [[= -> ->]|[H1 H2]]; auto.
    + intros [[->|H1] H2]; [left; congruence | auto].
  - rewrite IH. split; [tauto|]. intros [[->|H1] H2]; [congruence | auto].
Qed.

Lemma named_plain (props : list (string * V)) :
  Forall plain_name (JsObject.named props).
Proof.
  apply Forall_forall. intros kv H. apply filter_In in H as [_ H].
  unfold plain_name. destruct (JsObject.array_index (fst kv)); congruence.
Qed.

Lemma indexed_plain (props : list (string * V)) :
  Forall plain_name props -> JsObject.indexed props = [].
Proof.
  unfold plain_name. induction 1 as [|kv props Hk _ IH]; [reflexivity|].
  simpl. rewrite Hk. exact IH.
Qed.

Lemma named_all_plain (props : list (string * V)) :
  Forall plain_name props -> JsObject.named props = props.
Proof.
  unfold plain_name, JsObject.named.
  induction 1 as [|kv props Hk _ IH]; [reflexivity|].
  simpl. rewrite Hk, IH. reflexivity.
Qed.

(** Without a name that is an array index, the keys are enumerated in
    creation order. *)
Lemma own_order_plain (props : list (string * V)) :
  Forall plain_name props -> JsObject.own_order props = props.
Proof.
  intros H. unfold JsObject.own_order.
  rewrite indexed_plain, named_all_plain by exact H. reflexivity.
Qed.

End KeyOrder.

Section ResolverPolicy.

Local Open Scope string_scope.

Variable nm : string.
Variable d : ContainerDetails.

Let primary := IPAddress (NetworkSettings d).
Let networks := match Networks (NetworkSettings d) with
                | Some o => o
                | None => []
                end.
Let declared := Js.keys (match ExposedPorts (Config d) with
                         | Some o => o
                         | None => []
                         end).

(** C5: Endpoint resolution policy: the address is the primary address
    when that is non-empty; otherwise the address of the first attached
    network whose address is non-empty, in the order [Object.keys]
    enumerates the networks; with no such address the workload is not
    resolved. The port is the first declared exposed port up to its
    first slash, and the string 80 when nothing is declared (or when
    nothing precedes the slash). [Object.keys] enumerates the networks
    named by an array index first, in ascending order of the index, then
    the other networks in the order they are reported; so that order is
    the reported one when no network is named by an array index. *)
Theorem resolution_policy :
  (forall a, primary = Some a -> a <> "" ->
     exists e, resolve nm d = Some e /\ ip e = a)
  /\ (forall before k n after a,
        Js.truthy primary = false ->
        networks = (before ++ (k, n) :: after)%list ->
        Forall no_address before ->
        net_IPAddress n = Some a -> a <> "" ->
        exists e, resolve nm d = Some e /\ ip e = a)
  /\ (Js.truthy primary = false -> Forall no_address networks ->
      resolve nm d = None)
  /\ (forall e, resolve nm d = Some e ->
        name e = nm
        /\ (declared = [] -> port e = "80")
        /\ (forall num proto rest,
              declared = (num ++ "/" ++ proto) :: rest ->
              has_char "/" num = false -> num <> "" -> port e = num)
        /\ (forall k rest,
              declared = k :: rest ->
              has_char "/" k = false -> k <> "" -> port e = k)
        /\ (forall k rest,
              declared = k :: rest -> Js.split0 "/" k = "" -> port e = "80"))
  /\ (forall reported,
        Networks (NetworkSettings d) = Some (JsObject.parsed reported) ->
        let props := JsObject.properties reported in
        networks
          = (map snd (JsObject.indexed props) ++ JsObject.named props)%list
        /\ Sorted index_le (JsObject.indexed props)
        /\ (forall n kv, In (n, kv) (JsObject.indexed props) <->
                         In kv props /\ JsObject.array_index (fst kv) = Some n)
        /\ Forall plain_name (JsObject.named props)
        /\ (NoDup (map fst reported) -> props = reported)
        /\ (NoDup (map fst reported) -> Forall plain_name reported ->
            networks = reported)).
Proof.
  subst primary networks declared. split; [|split; [|split; [|split]]].
  - intros a Hp Ha. eexists. split.
    + apply resolve_with_ip; [|exact Ha]. unfold select_ip. rewrite Hp.
      apply truthy_some in Ha. rewrite Ha. reflexivity.
    + reflexivity.
  - intros before k n after a Hp Hn Hb Hip Ha. eexists. split.
    + apply resolve_with_ip; [|exact Ha]. unfold select_ip. rewrite Hp.
      destruct (Networks (NetworkSettings d)) as [nets|].
      * rewrite Hn, scan_networks_first, Hip; [reflexivity | exact Hb |].
        rewrite Hip. apply truthy_some. exact Ha.
      * destruct before; discriminate.
    + reflexivity.
  - intros Hp Hall. unfold resolve, select_ip. rewrite Hp.
    destruct (Networks (NetworkSettings d)) as [nets|].
    + rewrite scan_networks_none by exact Hall. rewrite Hp. reflexivity.
    + rewrite Hp. reflexivity.
  - intros e He. apply resolve_port in He as [Hn Hport]. split; [exact Hn|].
    rewrite Hport. unfold select_port. repeat split.
    + intros ->. reflexivity.
    + intros num proto rest -> Hc Hne. simpl hd_error. simpl option_map.
      change (num ++ "/" ++ proto) with (num ++ String "/" proto).
      rewrite split0_sep, split0_absent by exact Hc.
      apply or_else_nonempty. exact Hne.
    + intros k rest -> Hc Hne. simpl hd_error. simpl option_map.
      rewrite split0_absent by exact Hc. apply or_else_nonempty. exact Hne.
    + intros k rest -> Hk. simpl hd_error. simpl option_map.
      rewrite Hk. reflexivity.
  - intros reported ->. cbv zeta. split; [reflexivity|].
    split; [apply indexed_sorted|]. split; [apply indexed_in|].
    split; [apply named_plain|].
    split; [apply properties_distinct|].
    intros Hnd Hpl. unfold JsObject.parsed.
    rewrite properties_distinct by exact Hnd.
    apply own_order_plain. exact Hpl.
Qed.

End ResolverPolicy.

Lemma resolution_policy_witness :
  resolve "web"
    {| NetworkSettings :=
         {| IPAddress := Some "";
            Networks := Some [("back", {| net_IPAddress := Some "" |});
                              ("front", {| net_IPAddress := Some "10.0.0.5" |});
                              ("other", {| net_IPAddress := Some "10.0.9.9" |})] |};
       Config := {| ExposedPorts := Some [("3000/tcp", tt); ("80/tcp", tt)] |} |}
  = Some {| name := "web"; ip := "10.0.0.5"; port := "3000" |}.
Proof.
  set (d := {| NetworkSettings := _; Config := _ |}).
  destruct (resolution_policy "web" d) as (_ & Hnet & _ & Hport & _).
  assert (Hb : Forall no_address [("back", {| net_IPAddress := Some "" |})])
    by (repeat constructor).
  assert (Hne : "10.0.0.5" <> "") by discriminate.
  destruct (Hnet [("back", {| net_IPAddress := Some "" |})] "front"
              {| net_IPAddress := Some "10.0.0.5" |}
              [("other", {| net_IPAddress := Some "10.0.9.9" |})] "10.0.0.5"
              eq_refl eq_refl Hb eq_refl Hne)
    as (e & He & Hip).
  destruct (Hport e He) as (Hname & _ & Hnum & _).
  assert (Hp : "3000" <> "") by discriminate.
  pose proof (Hnum "3000" "tcp" ["80/tcp"] eq_refl eq_refl Hp) as Hport'.
  rewrite He. destruct e as [n i p]; simpl in *.
  subst. reflexivity.
Defined.

(** Networks named by array indices are not scanned in the order they
    are reported: with the network named 10 reported before the network
    named 2, the address of the latter is the one resolved. *)
Lemma networks_not_scanned_in_reported_order : ~ scans_in_reported_order.
Proof.
  intros H.
  destruct (H "web" None {| ExposedPorts := None |} []
              [("2", {| net_IPAddress := Some "10.0.2.5" |})]
              "10" {| net_IPAddress := Some "10.0.10.5" |} "10.0.10.5"
              eq_refl (Forall_nil _) eq_refl)
    as (e & He & Hip); [discriminate|].
  vm_compute in He. injection He as <-. simpl in Hip. discriminate Hip.
Qed.

(** ** One reconciliation pass *)

Section SetAllFacts.

Lemma keys_set_absent (m : Table) (k : string) (e : Endpoint) :
  JsMap.get m k = None -> JsMap.keys (JsMap.set m k e) = JsMap.keys m ++ [k].
Proof.
  induction m as [|[k' v'] m IH]; simpl; intros H; [reflexivity|].
  destruct (String.eqb k' k); [discriminate|]. simpl. rewrite IH by exact H.
  reflexivity.
Qed.

Lemma keys_set_all (es : list (string * Endpoint)) (m : Table) :
  NoDup (JsMap.keys m ++ map fst es) ->
  JsMap.keys (set_all m es) = JsMap.keys m ++ map fst es.
Proof.
  revert m; induction es as [|[k e] es IH]; intros m Hnd; simpl.
  - rewrite app_nil_r. reflexivity.
  - assert (Hk : JsMap.get m k = None).
    { destruct (JsMap.get m k) eqn:E; [|reflexivity]. exfalso.
      assert (Hin : In k (JsMap.keys m)) by (apply get_keys; congruence).
      apply NoDup_remove_2 in Hnd. apply Hnd, in_or_app. auto. }
    unfold set_all in *. simpl. rewrite IH; rewrite keys_set_absent by exact Hk.
    + rewrite <- app_assoc. reflexivity.
    + rewrite <- app_assoc. exact Hnd.
Qed.

Lemma get_set_all_other (es : list (string * Endpoint)) (m : Table) (k : string) :
  ~ In k (map fst es) -> JsMap.get (set_all m es) k = JsMap.get m k.
Proof.
  revert m; induction es as [|[k' e] es IH]; intros m Hk; simpl in *.
  - reflexivity.
  - unfold set_all in *. simpl. rewrite IH by tauto.
    apply get_set_other. intros ->. tauto.
Qed.

Lemma get_set_all_in (es : list (string * Endpoint)) (m : Table) k e :
  NoDup (map fst es) -> In (k, e) es -> JsMap.get (set_all m es) k = Some e.
Proof.
  revert m; induction es as [|[k' e'] es IH]; intros m Hnd Hin; simpl in *.
  - contradiction.
  - inversion Hnd as [|? ? Hni Hnd']; subst. unfold set_all in *. simpl.
    destruct Hin as [[= -> ->]|Hin].
    + fold (set_all (JsMap.set m k e) es).
      rewrite get_set_all_other by exact Hni. apply get_set_same.
    + apply IH; assumption.
Qed.

Lemma get_set_all_some (es : list (string * Endpoint)) (m : Table) k :
  In k (map fst es) -> JsMap.get (set_all m es) k <> None.
Proof.
  revert m; induction es as [|[k' e'] es IH]; intros m Hin; simpl in *.
  - contradiction.
  - unfold set_all in *. simpl.
    destruct (in_dec string_dec k (map fst es)) as [Hi|Hni].
    + apply IH. exact Hi.
    + fold (set_all (JsMap.set m k' e') es).
      rewrite get_set_all_other by exact Hni.
      destruct Hin as [->|?]; [|contradiction].
      rewrite get_set_same. discriminate.
Qed.

End SetAllFacts.

Section PassFacts.

Variable inspect : string -> Result ContainerDetails.

(** One turn of the loop body changes the new table by at most one
    [set], that of the workload's own entry. *)
Lemma after_inspect_table (m : Table) (c : ContainerInfo) (nm : string) :
  container_name c = Some nm ->
  fst (after_inspect m nm (inspect (Id c))) =
  match endpoint_of inspect c with
  | Some e => JsMap.set m nm e
  | None => m
  end.
Proof.
  intros Hn. unfold endpoint_of, after_inspect. rewrite Hn.
  destruct (inspect (Id c)) as [d|err]; [|reflexivity].
  destruct (resolve nm d); reflexivity.
Qed.

(** The loop over named workloads always reaches its end, and the table
    it has built is the entries of the listing, set in order. *)
Lemma loop_table (cs : list ContainerInfo) (m : Table) :
  Forall named cs ->
  fst (loop inspect m cs) = Some (set_all m (entries inspect cs)).
Proof.
  revert m; induction cs as [|c cs IH]; intros m Hall; [reflexivity|].
  inversion Hall as [|? ? Hc Hcs]; subst. simpl.
  destruct (container_name c) as [nm|] eqn:Hn; [|elim Hc; exact Hn].
  pose proof (after_inspect_table m c nm Hn) as Ha.
  destruct (after_inspect m nm (inspect (Id c))) as [m' l1]. simpl in Ha.
  specialize (IH m' Hcs).
  destruct (loop inspect m' cs) as [r l2]. simpl in *. rewrite IH, Ha.
  destruct (endpoint_of inspect c); reflexivity.
Qed.

Lemma entries_app (l1 l2 : list ContainerInfo) :
  entries inspect (l1 ++ l2) = entries inspect l1 ++ entries inspect l2.
Proof.
  induction l1 as [|c l1 IH]; simpl; [reflexivity|].
  destruct (container_name c), (endpoint_of inspect c); simpl; congruence.
Qed.

Lemma entries_failed (c : ContainerInfo) :
  endpoint_of inspect c = None -> entries inspect [c] = [].
Proof. simpl. intros ->. destruct (container_name c); reflexivity. Qed.

Lemma entries_keys (cs : list ContainerInfo) :
  Forall (fun c => endpoint_of inspect c <> None) cs ->
  map Some (map fst (entries inspect cs)) = map container_name cs.
Proof.
  induction 1 as [|c cs Hc _ IH]; simpl; [reflexivity|].
  unfold endpoint_of in Hc |- *.
  destruct (container_name c) as [nm|]; [|congruence].
  destruct (match inspect (Id c) with Resolved d => resolve nm d | Rejected _ => None end);
    [|congruence].
  simpl. rewrite IH. reflexivity.
Qed.

Lemma entries_in (cs : list ContainerInfo) (c : ContainerInfo) nm e :
  In c cs -> container_name c = Some nm -> endpoint_of inspect c = Some e ->
  In (nm, e) (entries inspect cs).
Proof.
  induction cs as [|c' cs IH]; simpl; intros Hin Hn He; [contradiction|].
  destruct Hin as [->|Hin].
  - rewrite Hn, He. left. reflexivity.
  - destruct (container_name c'), (endpoint_of inspect c'); simpl; auto.
Qed.

(** The log of the loop mentions the workload that failed. *)
Lemma loop_log_failed (before after : list ContainerInfo) c nm (m : Table) :
  Forall named before ->
  container_name c = Some nm ->
  endpoint_of inspect c = None ->
  In (WarnNoIp nm) (snd (loop inspect m (before ++ c :: after)))
  \/ exists msg, In (ErrInspect nm msg) (snd (loop inspect m (before ++ c :: after))).
Proof.
  intros Hb Hn He. revert m.
  induction Hb as [|c' before Hc' _ IH]; intros m; simpl.
  - rewrite Hn. unfold endpoint_of in He. rewrite Hn in He.
    unfold after_inspect.
    destruct (inspect (Id c)) as [d|err].
    + rewrite He. destruct (loop inspect m after). simpl. auto.
    + destruct (loop inspect m after). simpl. right. eauto.
  - destruct (container_name c') as [nm'|] eqn:E; [|elim Hc'; exact E].
    destruct (after_inspect m nm' (inspect (Id c'))) as [m' l1].
    specialize (IH m'). destruct (loop inspect m' (before ++ c :: after)) as [r l2].
    simpl in *. destruct IH as [IH|[msg IH]]; [left|right; exists msg];
      apply in_or_app; auto.
Qed.

Lemma updateRoutes_installed (cs : list ContainerInfo) (cm : Table) :
  Forall named cs ->
  let table := set_all JsMap.empty (entries inspect cs) in
  updateRoutes inspect (Resolved cs) cm =
  (table, LogUpdating :: snd (loop inspect JsMap.empty cs)
                       ++ [LogTotal (JsMap.size table)]).
Proof.
  intros Hall table. unfold updateRoutes.
  pose proof (loop_table cs JsMap.empty Hall) as H.
  destruct (loop inspect JsMap.empty cs) as [r l]. simpl in H. subst r.
  reflexivity.
Qed.

End PassFacts.

Section PassProperties.

Variable inspect : string -> Result ContainerDetails.

(** C4: Partial-failure isolation: in a pass over N listed workloads
    of which exactly one fails (its inspection is rejected, or no address
    is found for it), the loop still reaches its end and the table is
    installed; the failure is only printed; the table is the one the
    other N-1 workloads alone would have given, it has an entry under
    the name of each of them, and, names being distinct, it has exactly
    those N-1 entries and none under the name of the failed one. *)
Theorem partial_failure_isolation (cm : Table)
  (before after : list ContainerInfo) (failed : ContainerInfo) (nm : string) :
  let listed := before ++ failed :: after in
  let others := before ++ after in
  Forall named listed ->
  container_name failed = Some nm ->
  endpoint_of inspect failed = None ->
  Forall (fun c => endpoint_of inspect c <> None) others ->
  exists table lg,
    loop inspect JsMap.empty listed = (Some table, lg)
    /\ updateRoutes inspect (Resolved listed) cm
       = (table, LogUpdating :: lg ++ [LogTotal (JsMap.size table)])
    /\ (In (WarnNoIp nm) lg \/ exists msg, In (ErrInspect nm msg) lg)
    /\ table = fst (updateRoutes inspect (Resolved others) cm)
    /\ (forall c n, In c others -> container_name c = Some n ->
          JsMap.get table n <> None)
    /\ (NoDup (map container_name listed) ->
        JsMap.get table nm = None
        /\ JsMap.size table = length others
        /\ forall c n, In c others -> container_name c = Some n ->
             JsMap.get table n = endpoint_of inspect c).
Proof.
  intros listed others Hnamed Hn Hfail Hok.
  assert (Hnamed' : Forall named others).
  { subst listed others. apply Forall_app in Hnamed as [Hb Ha].
    inversion Ha; subst. apply Forall_app. auto. }
  assert (Hes : entries inspect listed = entries inspect others).
  { subst listed others.
    change (failed :: after) with ([failed] ++ after).
    rewrite !entries_app, (entries_failed inspect failed Hfail). reflexivity. }
  pose proof (loop_table inspect listed JsMap.empty Hnamed) as Hloop.
  pose proof (updateRoutes_installed inspect listed cm Hnamed) as Hup.
  pose proof (updateRoutes_installed inspect others cm Hnamed') as Hup'.
  cbv zeta in Hup, Hup'.
  assert (Hb : Forall named before).
  { subst listed. apply Forall_app in Hnamed as [Hb _]. exact Hb. }
  pose proof (loop_log_failed inspect before after failed nm JsMap.empty
                Hb Hn Hfail) as Hlog.
  fold listed in Hlog.
  destruct (loop inspect JsMap.empty listed) as [r lg]. simpl in Hloop, Hup, Hlog.
  subst r. exists (set_all JsMap.empty (entries inspect listed)), lg.
  split; [reflexivity|]. split; [exact Hup|]. split; [exact Hlog|].
  split; [rewrite Hup', Hes; reflexivity|].
  pose proof (entries_keys inspect others Hok) as Hkeys.
  rewrite Hes. split.
  - intros c n Hin Hc. apply get_set_all_some.
    assert (In (Some n) (map Some (map fst (entries inspect others)))) as Hi.
    { rewrite Hkeys, <- Hc. apply in_map. exact Hin. }
    apply in_map_iff in Hi as (n' & [= ->] & Hi). exact Hi.
  - intros Hnd.
    assert (Hnd' : NoDup (map fst (entries inspect others))).
    { apply (NoDup_map_inv Some). rewrite Hkeys. subst listed others.
      rewrite map_app in *. simpl in Hnd. apply NoDup_remove_1 in Hnd.
      exact Hnd. }
    assert (Hni : ~ In nm (map fst (entries inspect others))).
    { intros Hi. apply (in_map Some) in Hi. rewrite Hkeys in Hi.
      subst listed others. rewrite map_app in *. simpl in Hnd.
      apply NoDup_remove_2 in Hnd. rewrite Hn in Hnd. exact (Hnd Hi). }
    split; [rewrite get_set_all_other by exact Hni; reflexivity|]. split.
    + unfold JsMap.size.
      rewrite <- (length_map fst (set_all JsMap.empty (entries inspect others))).
      change (map fst (set_all JsMap.empty (entries inspect others)))
        with (JsMap.keys (set_all JsMap.empty (entries inspect others))).
      rewrite keys_set_all by exact Hnd'. simpl.
      rewrite <- (length_map Some), Hkeys, length_map. reflexivity.
    + intros c n Hin Hc.
      destruct (endpoint_of inspect c) as [e|] eqn:He.
      * apply get_set_all_in; [exact Hnd'|].
        apply (entries_in inspect others c n e); assumption.
      * rewrite Forall_forall in Hok. elim (Hok c Hin). exact He.
Qed.

(** C2: Listing-failure safety: when [listContainers] is rejected the
    pass prints the failure and returns with [containerMap] as it was,
    so every lookup gives what it gave before; in the running process
    the table is unchanged while and after the pass is resumed with the
    rejection, and the process has not exited. When the pass is the one
    [init] awaits, [init] goes on next with the table still unchanged,
    and the process exits then, with code 1, only if a call of [listen]
    throws. *)
Theorem listing_failure_keeps_table (cm : Table) (e : Error) :
  updateRoutes inspect (Rejected e) cm
    = (cm, [LogUpdating; ErrUpdating (message e)])
  /\ (forall k, JsMap.get (fst (updateRoutes inspect (Rejected e) cm)) k
                = JsMap.get cm k)
  /\ (forall w i caller,
        exited w = None ->
        nth_error (inflight w) i = Some (AwaitList, caller) ->
        exists w',
          step (Resume i (RList (Rejected e))) w = Some w'
          /\ heap w' = heap w
          /\ containerMap w' = containerMap w
          /\ (forall k, JsMap.get (table w') k = JsMap.get (table w) k)
          /\ exited w' = None
          /\ length (inflight w') = pred (length (inflight w)))
  /\ (forall w i management proxy,
        exited w = None ->
        nth_error (inflight w) i = Some (AwaitList, FromInit) ->
        exists w' w'',
          step (Resume i (RList (Rejected e))) w = Some w'
          /\ step (InitResumes management proxy) w' = Some w''
          /\ heap w'' = heap w
          /\ containerMap w'' = containerMap w
          /\ exited w'' = match management, proxy with
                          | Resolved _, Resolved _ => None
                          | _, _ => Some 1
                          end).
Proof.
  split; [reflexivity|]. split; [reflexivity|]. split.
  - intros w i caller Hex Hnth.
    unfold step, on_resume. rewrite Hex, Hnth. simpl.
    eexists. split; [reflexivity|].
    assert (Hlen : forall l : list (Pass * Caller),
              nth_error l i <> None -> length (del_nth i l) = pred (length l)).
    { clear. induction i as [|i IH]; intros [|x l] H; simpl in *;
        try congruence. rewrite IH by exact H.
      destruct l; [destruct i; simpl in H; congruence | reflexivity]. }
    destruct caller; simpl; repeat split; auto; apply Hlen; congruence.
  - intros w i management proxy Hex Hnth.
    unfold step at 1. unfold on_resume. rewrite Hex, Hnth. simpl.
    eexists. eexists. split; [reflexivity|].
    unfold step. simpl. rewrite Hex. simpl.
    split; [reflexivity|]. unfold on_init_resumes.
    destruct management as [u|err]; [destruct proxy as [u'|err]|];
      simpl; repeat split; auto.
Qed.

End PassProperties.

Lemma partial_failure_isolation_witness :
  let ok := Resolved {| NetworkSettings := {| IPAddress := Some "172.17.0.2";
                                              Networks := None |};
                        Config := {| ExposedPorts := None |} |} in
  let inspect := fun id => if String.eqb id "id-b"
                           then Rejected {| message := "no such container" |}
                           else ok in
  fst (updateRoutes inspect
         (Resolved [ {| Id := "id-a"; Names := ["/a"] |};
                     {| Id := "id-b"; Names := ["/b"] |};
                     {| Id := "id-c"; Names := ["/c"] |} ])
         JsMap.empty)
  = [("a", {| name := "a"; ip := "172.17.0.2"; port := "80" |});
     ("c", {| name := "c"; ip := "172.17.0.2"; port := "80" |})].
Proof.
  intros ok inspect.
  destruct (partial_failure_isolation inspect JsMap.empty
              [ {| Id := "id-a"; Names := ["/a"] |} ]
              [ {| Id := "id-c"; Names := ["/c"] |} ]
              {| Id := "id-b"; Names := ["/b"] |} "b")
    as (table & lg & Hloop & Hup & _).
  - repeat constructor; discriminate.
  - reflexivity.
  - reflexivity.
  - repeat constructor; discriminate.
  - simpl app in Hup. rewrite Hup. vm_compute in Hloop.
    injection Hloop as <- _. reflexivity.
Defined.

Lemma listing_failure_keeps_table_witness :
  exists w',
    step (Resume 0 (RList (Rejected {| message := "connect ENOENT" |})))
         (on_ping (Resolved tt) boot) = Some w'
    /\ heap w' = heap (on_ping (Resolved tt) boot)
    /\ containerMap w' = containerMap (on_ping (Resolved tt) boot)
    /\ (forall k, JsMap.get (table w') k
                  = JsMap.get (table (on_ping (Resolved tt) boot)) k)
    /\ exited w' = None
    /\ length (inflight w') = 0.
Proof.
  destruct (listing_failure_keeps_table (fun _ => Rejected {| message := "" |})
              JsMap.empty {| message := "connect ENOENT" |})
    as (_ & _ & H & _).
  apply (H (on_ping (Resolved tt) boot) 0 FromInit); reflexivity.
Defined.

(** ** Passes in the event loop *)

Section ListFacts.

Context {A : Type}.

Lemma nth_error_ops (l : list A) (i : nat) (x : A) :
  nth_error l i = Some x ->
  exists l1 l2,
    l = l1 ++ x :: l2
    /\ (forall y, set_nth i y l = l1 ++ y :: l2)
    /\ del_nth i l = l1 ++ l2.
Proof.
  revert i; induction l as [|a l IH]; intros [|i] H; simpl in H; try discriminate.
  - injection H as ->. exists [], l. repeat split.
  - destruct (IH i H) as (l1 & l2 & -> & Hs & Hd).
    exists (a :: l1), l2. simpl. repeat split.
    + intros y. rewrite Hs. reflexivity.
    + rewrite Hd. reflexivity.
Qed.

Lemma nth_error_set_nth (l : list A) (i : nat) (x y : A) :
  nth_error l i = Some x -> nth_error (set_nth i y l) i = Some y.
Proof.
  revert i; induction l as [|a l IH]; intros [|i] H; simpl in *;
    try discriminate; auto.
Qed.

Lemma length_set_nth (l : list A) (i : nat) (y : A) :
  length (set_nth i y l) = length l.
Proof.
  revert i; induction l as [|a l IH]; intros [|i]; simpl; auto.
Qed.

Lemma nth_set_nth_same (l : list A) (i : nat) (y d : A) :
  i < length l -> nth i (set_nth i y l) d = y.
Proof.
  revert i; induction l as [|a l IH]; intros [|i] H; simpl in *;
    try lia; auto. apply IH. lia.
Qed.

Lemma nth_set_nth_other (l : list A) (i j : nat) (y d : A) :
  i <> j -> nth j (set_nth i y l) d = nth j l d.
Proof.
  revert i j; induction l as [|a l IH]; intros [|i] [|j] H; simpl;
    try congruence; auto.
Qed.

End ListFacts.

Section Separation.

Lemma refs_app (l1 l2 : list (Pass * Caller)) :
  refs (l1 ++ l2) = refs l1 ++ refs l2.
Proof. apply flat_map_app. Qed.

Lemma after_pass_heap caller w : heap (after_pass caller w) = heap w.
Proof. destruct caller; reflexivity. Qed.

Lemma after_pass_containerMap caller w :
  containerMap (after_pass caller w) = containerMap w.
Proof. destruct caller; reflexivity. Qed.

Lemma after_pass_inflight caller w : inflight (after_pass caller w) = inflight w.
Proof. destruct caller; reflexivity. Qed.

Lemma after_pass_exited caller w : exited (after_pass caller w) = exited w.
Proof. destruct caller; reflexivity. Qed.

Lemma after_pass_table caller w : table (after_pass caller w) = table w.
Proof. destruct caller; reflexivity. Qed.

(** What a step other than the resumption of a pass does to the maps. *)
Lemma step_other (lbl : Label) (w w' : World) :
  (forall i r, lbl <> Resume i r) ->
  step lbl w = Some w' ->
  heap w' = heap w
  /\ containerMap w' = containerMap w
  /\ refs (inflight w') = refs (inflight w).
Proof.
  intros Hl. unfold step. destruct (is_some (exited w)); [discriminate|].
  destruct lbl as [r|i r|r|chunk|e| |d| |mg px|sv|sv e].
  - destruct (awaitingPing w); [|discriminate]. intros [= <-].
    destruct r; simpl; repeat split.
    rewrite refs_app. simpl. apply app_nil_r.
  - elim (Hl i r). reflexivity.
  - destruct (Nat.ltb 0 (subscribing w)); [|discriminate]. intros [= <-].
    destruct r; repeat split.
  - destruct (is_some (eventStream w)); [|discriminate]. intros [= <-].
    destruct chunk as [msg|ev]; simpl; [repeat split|].
    destruct (relevant ev); simpl; repeat split.
    rewrite refs_app. simpl. apply app_nil_r.
  - destruct (is_some (eventStream w)); [|discriminate]. intros [= <-].
    repeat split.
  - destruct (is_some (eventStream w)); [|discriminate]. intros [= <-].
    repeat split.
  - destruct (existsb (Nat.eqb d) (timers w)); [|discriminate].
    intros [= <-]. repeat split.
  - destruct (initPending w); [discriminate|]. intros [= <-]. repeat split.
  - destruct (initPending w); [|discriminate]. intros [= <-].
    unfold on_init_resumes. destruct mg; [destruct px|]; repeat split.
  - destruct (listening w); [|discriminate]. intros [= <-]. repeat split.
  - destruct (listening w); [|discriminate]. intros [= <-]. repeat split.
Qed.

End Separation.

Section ResumeFacts.

(** The head of the loop either returns after the assignment, returns
    through the outer [catch], or suspends the pass at the next
    [inspect]. *)
Lemma enter_loop_effect (ref : Ref) (todo : list ContainerInfo) (w : World) :
  heap (snd (enter_loop ref todo w)) = heap w
  /\ inflight (snd (enter_loop ref todo w)) = inflight w
  /\ exited (snd (enter_loop ref todo w)) = exited w
  /\ ((todo = [] /\ fst (enter_loop ref todo w) = None
       /\ containerMap (snd (enter_loop ref todo w)) = ref)
      \/ (containerMap (snd (enter_loop ref todo w)) = containerMap w
          /\ fst (enter_loop ref todo w) = None
          /\ exists c rest, todo = c :: rest /\ container_name c = None)
      \/ (containerMap (snd (enter_loop ref todo w)) = containerMap w
          /\ exists c nm rest,
               todo = c :: rest /\ container_name c = Some nm
               /\ fst (enter_loop ref todo w) = Some (AwaitInspect ref c nm rest))).
Proof.
  destruct todo as [|c rest]; simpl.
  - repeat split. left. repeat split.
  - destruct (container_name c) as [nm|] eqn:E; simpl; repeat split.
    + right. right. split; [reflexivity|]. exists c, nm, rest. repeat split.
      exact E.
    + right. left. repeat split. exists c, rest. split; [reflexivity | exact E].
Qed.

(** The effect of resuming a pass on the maps and on the passes in
    flight. *)
Lemma on_resume_effect (i : nat) (r : Response) (w w' : World) :
  on_resume i r w = Some w' ->
  exists p caller l1 l2,
    nth_error (inflight w) i = Some (p, caller)
    /\ inflight w = l1 ++ (p, caller) :: l2
    /\ exited w' = exited w
    /\ ((p = AwaitList /\ heap w' = heap w
         /\ containerMap w' = containerMap w /\ inflight w' = l1 ++ l2)
        \/ exists ref todo,
             ((p = AwaitList /\ ref = length (heap w)
               /\ heap w' = heap w ++ [JsMap.empty]
               /\ r = RList (Resolved todo))
              \/ (exists c nm ri,
                    p = AwaitInspect ref c nm todo /\ r = RInspect ri
                    /\ heap w' = set_nth ref (fst (after_inspect (deref w ref) nm ri))
                                         (heap w)))
             /\ ((todo = [] /\ containerMap w' = ref /\ inflight w' = l1 ++ l2)
                 \/ (containerMap w' = containerMap w /\ inflight w' = l1 ++ l2
                     /\ exists c rest, todo = c :: rest /\ container_name c = None)
                 \/ (containerMap w' = containerMap w
                     /\ exists c nm rest,
                          todo = c :: rest /\ container_name c = Some nm
                          /\ inflight w' = l1 ++ (AwaitInspect ref c nm rest, caller) :: l2))).
Proof.
  unfold on_resume.
  destruct (nth_error (inflight w) i) as [[p caller]|] eqn:Hn; [|discriminate].
  destruct (nth_error_ops _ _ _ Hn) as (l1 & l2 & Hl & Hset & Hdel).
  intros H. exists p, caller, l1, l2. split; [reflexivity|]. split; [exact Hl|].
  assert (K : forall ref todo w1,
            inflight w1 = inflight w ->
            exited w1 = exited w ->
            match enter_loop ref todo w1 with
            | (Some p', w2) =>
                Some (set_inflight (set_nth i (p', caller) (inflight w2)) w2)
            | (None, w2) =>
                Some (after_pass caller (set_inflight (del_nth i (inflight w2)) w2))
            end = Some w' ->
            containerMap w1 = containerMap w ->
            exited w' = exited w
            /\ heap w' = heap w1
            /\ ((todo = [] /\ containerMap w' = ref /\ inflight w' = l1 ++ l2)
                \/ (containerMap w' = containerMap w /\ inflight w' = l1 ++ l2
                    /\ exists c rest, todo = c :: rest /\ container_name c = None)
                \/ (containerMap w' = containerMap w
                    /\ exists c nm rest,
                         todo = c :: rest /\ container_name c = Some nm
                         /\ inflight w' = l1 ++ (AwaitInspect ref c nm rest, caller) :: l2))).
  { intros ref todo w1 Hfl Hex1 Hw' Hcm.
    destruct (enter_loop_effect ref todo w1) as (Eh & Ei & Ee & Ecase).
    destruct (enter_loop ref todo w1) as [op w2]. simpl in *.
    destruct Ecase as [(Ht & Hop & Hc)|[(Hc & Hop & c & rest & Ht & Hnm)
                                       |(Hc & c & nm & rest & Ht & Hnm & Hop)]];
      subst op; injection Hw' as <-.
    - rewrite after_pass_exited, after_pass_heap, after_pass_containerMap,
        after_pass_inflight. simpl. rewrite Ei, Hfl, Hdel.
      split; [congruence|]. split; [exact Eh|]. left. auto.
    - rewrite after_pass_exited, after_pass_heap, after_pass_containerMap,
        after_pass_inflight. simpl. rewrite Ei, Hfl, Hdel.
      split; [congruence|]. split; [exact Eh|]. right. left.
      split; [congruence|]. split; [reflexivity|]. exists c, rest. auto.
    - simpl. rewrite Ei, Hfl, Hset.
      split; [congruence|]. split; [exact Eh|]. right. right.
      split; [congruence|]. exists c, nm, rest. auto. }
  destruct p as [|ref c nm rest]; destruct r as [[cs|e]|ri]; simpl in H;
    try discriminate.
  - destruct (K (length (heap w)) cs (set_heap (heap w ++ [JsMap.empty]) w)
                eq_refl eq_refl H eq_refl) as (Hex & Hh & Hcase).
    split; [exact Hex|]. right. exists (length (heap w)), cs.
    split; [|exact Hcase]. left. repeat split. exact Hh.
  - injection H as <-. rewrite after_pass_exited, after_pass_heap,
      after_pass_containerMap, after_pass_inflight. simpl.
    split; [reflexivity|]. left. repeat split. exact Hdel.
  - destruct (after_inspect (deref w ref) nm ri) as [m l] eqn:Ea.
    destruct (K ref rest (log l (store ref m w))
                eq_refl eq_refl H eq_refl) as (Hex & Hh & Hcase).
    split; [exact Hex|]. right. exists ref, rest.
    split; [|exact Hcase]. right. exists c, nm, ri. repeat split.
    rewrite Ea. exact Hh.
Qed.

End ResumeFacts.

Section SeparationInvariant.

Lemma NoDup_insert (l1 l2 : list Ref) (a : Ref) :
  NoDup (l1 ++ l2) -> ~ In a (l1 ++ l2) -> NoDup (l1 ++ a :: l2).
Proof.
  intros Hnd Hni. apply (Permutation_NoDup (Permutation_middle l1 l2 a)).
  constructor; assumption.
Qed.

Lemma Forall_lt_S (l : list Ref) (n : nat) :
  Forall (fun r => r < n) l -> Forall (fun r => r < S n) l.
Proof. apply Forall_impl. intros; lia. Qed.

Lemma Forall_lt_not_in (l : list Ref) (n : nat) :
  Forall (fun r => r < n) l -> ~ In n l.
Proof. intros H Hin. rewrite Forall_forall in H. apply H in Hin. lia. Qed.

(** Every step keeps the maps being filled apart from one another and
    from the live table. *)
Lemma step_separate (lbl : Label) (w w' : World) :
  separate w -> step lbl w = Some w' -> separate w'.
Proof.
  intros (Hcm & Hlt & Hni & Hnd) Hstep.
  assert (Hres : (forall i r, lbl <> Resume i r) \/ exists i r, lbl = Resume i r).
  { destruct lbl; try (left; intros; discriminate). right. eauto. }
  destruct Hres as [Ho|(i & r & ->)].
  { destruct (step_other lbl w w' Ho Hstep) as (Eh & Ec & Er).
    unfold separate. rewrite Eh, Ec, Er. auto. }
  unfold step in Hstep. destruct (is_some (exited w)); [discriminate|].
  destruct (on_resume_effect i r w w' Hstep)
    as (p & caller & l1 & l2 & _ & Hl & _ & Hcase).
  rewrite Hl, refs_app in Hlt, Hni, Hnd. simpl in Hlt, Hni, Hnd.
  unfold separate.
  destruct Hcase as [(-> & Eh & Ec & Ei)|(ref & todo & Hp & Hout)].
  { rewrite Eh, Ec, Ei, refs_app. simpl in *. auto. }
  destruct Hp as [(-> & -> & Eh & _)|(c & nm & ri & -> & _ & Eh)]; simpl in *.
  - (* the pass has just created its map *)
    rewrite Eh, length_app. simpl. rewrite Nat.add_1_r.
    destruct Hout as [(_ & Ec & Ei)|[(Ec & Ei & _)|(Ec & c & nm & rest & _ & _ & Ei)]];
      rewrite Ec, Ei, refs_app; simpl.
    + repeat split; [lia | apply Forall_lt_S; exact Hlt
                    | apply Forall_lt_not_in; exact Hlt | exact Hnd].
    + repeat split; [lia | apply Forall_lt_S; exact Hlt | exact Hni | exact Hnd].
    + repeat split.
      * lia.
      * apply Forall_app in Hlt as [H1 H2]. apply Forall_app. split.
        -- apply Forall_lt_S; exact H1.
        -- constructor; [lia | apply Forall_lt_S; exact H2].
      * intros Hin. apply in_app_or in Hin as [Hin|[Hin|Hin]].
        -- apply Hni, in_or_app; auto.
        -- lia.
        -- apply Hni, in_or_app; auto.
      * apply NoDup_insert; [exact Hnd | apply Forall_lt_not_in; exact Hlt].
  - (* the pass goes on with the map it has *)
    rewrite Eh, length_set_nth.
    assert (Href : ref < length (heap w)).
    { apply Forall_app in Hlt as [_ H2]. inversion H2; assumption. }
    assert (Hlt' : Forall (fun r => r < length (heap w)) (refs l1 ++ refs l2)).
    { apply Forall_app in Hlt as [H1 H2]. inversion H2; subst.
      apply Forall_app; auto. }
    destruct Hout as [(_ & Ec & Ei)|[(Ec & Ei & _)|(Ec & c' & nm' & rest & _ & _ & Ei)]];
      rewrite Ec, Ei, refs_app; simpl.
    + repeat split; [exact Href | exact Hlt'
                    | apply NoDup_remove_2; exact Hnd
                    | apply NoDup_remove_1 in Hnd; exact Hnd].
    + repeat split; [exact Hcm | exact Hlt' | | apply NoDup_remove_1 in Hnd; exact Hnd].
      intros Hin. apply Hni. apply in_app_or in Hin as [?|?];
        apply in_or_app; simpl; auto.
    + repeat split; assumption.
Qed.

Lemma run_separate (lbls : list Label) (w0 w : World) :
  separate w0 -> run lbls w0 = Some w -> separate w.
Proof.
  revert w0; induction lbls as [|lbl lbls IH]; intros w0 H0; simpl.
  - intros [= <-]. exact H0.
  - destruct (step lbl w0) as [w1|] eqn:E; [|discriminate].
    apply IH. exact (step_separate lbl w0 w1 H0 E).
Qed.

Lemma reachable_separate (w : World) : reachable w -> separate w.
Proof.
  intros [lbls H]. apply (run_separate lbls boot w); [|exact H].
  unfold separate, boot. simpl. repeat split; [lia | constructor | tauto | constructor].
Qed.

(** A step never changes the contents of the object that is the live
    table, and [containerMap] goes on referring to it unless the step is
    the last one of a pass. *)
Lemma step_table (lbl : Label) (w w' : World) :
  separate w -> step lbl w = Some w' ->
  deref w' (containerMap w) = table w
  /\ ((containerMap w' = containerMap w /\ table w' = table w)
      \/ installs w lbl w').
Proof.
  enough (H : separate w -> step lbl w = Some w' ->
              deref w' (containerMap w) = table w
              /\ (containerMap w' = containerMap w \/ installs w lbl w')).
  { intros Hs Hstep. destruct (H Hs Hstep) as [H1 [H2|H2]].
    - split; [exact H1|]. left. split; [exact H2|].
      unfold table at 1. rewrite H2. exact H1.
    - split; [exact H1|]. right. exact H2. }
  intros (Hcm & Hlt & Hni & Hnd) Hstep.
  assert (Hres : (forall i r, lbl <> Resume i r) \/ exists i r, lbl = Resume i r).
  { destruct lbl; try (left; intros; discriminate). right. eauto. }
  destruct Hres as [Ho|(i & r & ->)].
  { destruct (step_other lbl w w' Ho Hstep) as (Eh & Ec & Er).
    unfold table, deref. rewrite Eh. auto. }
  unfold step in Hstep. destruct (is_some (exited w)); [discriminate|].
  destruct (on_resume_effect i r w w' Hstep)
    as (p & caller & l1 & l2 & Hn & Hl & _ & Hcase).
  rewrite Hl, refs_app in Hlt, Hni. simpl in Hlt, Hni.
  unfold table, deref.
  destruct Hcase as [(-> & Eh & Ec & Ei)|(ref & todo & Hp & Hout)].
  { rewrite Eh. auto. }
  assert (Hold : nth (containerMap w) (heap w') JsMap.empty
                 = nth (containerMap w) (heap w) JsMap.empty
                 /\ ref <> containerMap w
                 /\ nth ref (heap w') JsMap.empty
                    = match p with
                      | AwaitList => JsMap.empty
                      | AwaitInspect _ _ nm _ =>
                          match r with
                          | RInspect ri => fst (after_inspect (deref w ref) nm ri)
                          | _ => JsMap.empty
                          end
                      end).
  { destruct Hp as [(-> & -> & Eh & _)|(c & nm & ri & -> & -> & Eh)]; rewrite Eh.
    - split; [apply app_nth1; exact Hcm|]. split; [lia|].
      rewrite app_nth2, Nat.sub_diag by lia. reflexivity.
    - assert (Hne : ref <> containerMap w).
      { intros ->. apply Hni, in_or_app. simpl. auto. }
      split; [apply nth_set_nth_other; exact Hne|]. split; [exact Hne|].
      apply nth_set_nth_same.
      apply Forall_app in Hlt as [_ H2]. inversion H2; assumption. }
  destruct Hold as (Hold & Hne & Hnew). split; [exact Hold|].
  destruct Hout as [(-> & Ec & Ei)|[(Ec & _)|(Ec & _)]]; [|left; exact Ec ..].
  right. exists i, r, p, caller. split; [reflexivity|]. split; [exact Hn|].
  split; [congruence|].
  destruct Hp as [(-> & -> & Eh & ->)|(c & nm & ri & -> & -> & Eh)].
  - repeat split; [exact Ec|]. unfold table, deref. rewrite Ec. exact Hnew.
  - repeat split; [exact Ec|]. exists ri. split; [reflexivity|].
    unfold table, deref. rewrite Ec. exact Hnew.
Qed.

End SeparationInvariant.

Section SoloPass.

Variable inspect : string -> Result ContainerDetails.

Lemma step_resume (i : nat) (r : Response) (w : World) :
  exited w = None -> step (Resume i r) w = on_resume i r w.
Proof. intros H. unfold step. rewrite H. reflexivity. Qed.

Lemma trace_cons (lbl : Label) (lbls : list Label) (w : World) :
  trace (lbl :: lbls) w
  = match step lbl w with
    | Some w' => option_map (cons w') (trace lbls w')
    | None => None
    end.
Proof. reflexivity. Qed.

Lemma fst_loop_cons (m : Table) (c : ContainerInfo) (nm : string)
  (rest : list ContainerInfo) :
  container_name c = Some nm ->
  fst (loop inspect m (c :: rest))
  = fst (loop inspect (fst (after_inspect m nm (inspect (Id c)))) rest).
Proof.
  intros Hc. simpl. rewrite Hc.
  destruct (after_inspect m nm (inspect (Id c))) as [m' l1]. simpl.
  destruct (loop inspect m' rest). reflexivity.
Qed.

Lemma resume_inspect (w : World) (ref : Ref) (c : ContainerInfo) (nm : string)
  (rest : list ContainerInfo) (ri : Result ContainerDetails) :
  resume (AwaitInspect ref c nm rest) (RInspect ri) w
  = Some (enter_loop ref rest
            (log (snd (after_inspect (deref w ref) nm ri))
                 (store ref (fst (after_inspect (deref w ref) nm ri)) w))).
Proof.
  simpl. destruct (after_inspect (deref w ref) nm ri). reflexivity.
Qed.

(** From an [await] inside the loop on, the pass, resumed with the
    answers of the runtime, leaves the live table as it is until its last
    step, which makes [containerMap] refer to what the loop has built. *)
Lemma solo_loop (rest : list ContainerInfo) :
  forall (w : World) (i : nat) (caller : Caller) (ref : Ref)
         (c : ContainerInfo) (nm : string),
    exited w = None ->
    ref < length (heap w) ->
    ref <> containerMap w ->
    nth_error (inflight w) i = Some (AwaitInspect ref c nm rest, caller) ->
    container_name c = Some nm ->
    Forall named rest ->
    exists ws t,
      trace (map (fun c => Resume i (RInspect (inspect (Id c)))) (c :: rest)) w
        = Some ws
      /\ fst (loop inspect (deref w ref) (c :: rest)) = Some t
      /\ map table ws = repeat (table w) (length rest) ++ [t].
Proof.
  induction rest as [|c' rest IH]; intros w i caller ref c nm Hex Href Hne Hn Hc Hall;
    rewrite (fst_loop_cons _ c nm _ Hc);
    change (map (fun c => Resume i (RInspect (inspect (Id c)))) (c :: ?l))
      with (Resume i (RInspect (inspect (Id c)))
            :: map (fun c => Resume i (RInspect (inspect (Id c)))) l);
    rewrite trace_cons, step_resume by exact Hex; unfold on_resume;
    rewrite Hn, resume_inspect;
    set (m := fst (after_inspect (deref w ref) nm (inspect (Id c))));
    set (l := snd (after_inspect (deref w ref) nm (inspect (Id c)))).
  - simpl. eexists. exists m. split; [reflexivity|]. split; [reflexivity|].
    simpl. rewrite after_pass_table. unfold table, deref. simpl.
    rewrite nth_set_nth_same by exact Href. reflexivity.
  - inversion Hall as [|? ? Hc' Hall']; subst.
    destruct (container_name c') as [nm'|] eqn:Hnm'; [|elim Hc'; exact Hnm'].
    unfold enter_loop. rewrite Hnm'.
    set (w1 := log l (store ref m w)).
    set (w' := set_inflight
                 (set_nth i (AwaitInspect ref c' nm' rest, caller) (inflight w1)) w1).
    assert (Hderef : deref w' ref = m).
    { unfold deref. simpl. apply nth_set_nth_same. exact Href. }
    assert (Htable : table w' = table w).
    { unfold table, deref. simpl. apply nth_set_nth_other. exact Hne. }
    destruct (IH w' i caller ref c' nm') as (ws & t & Ht & Hl & Hm); auto.
    + simpl. rewrite length_set_nth. exact Href.
    + simpl. apply (nth_error_set_nth _ _ _ _ Hn).
    + rewrite Ht. exists (w' :: ws), t.
      split; [reflexivity|]. rewrite Hderef in Hl. split; [exact Hl|].
      change (map table (w' :: ws)) with (table w' :: map table ws).
      rewrite Hm, Htable. reflexivity.
Qed.

(** The pass from its first [await] to its last step. *)
Lemma solo_pass (w : World) (i : nat) (caller : Caller) (cs : list ContainerInfo) :
  separate w ->
  exited w = None ->
  nth_error (inflight w) i = Some (AwaitList, caller) ->
  Forall named cs ->
  exists ws,
    trace (pass_labels inspect i cs) w = Some ws
    /\ map table ws
       = repeat (table w) (length cs)
         ++ [fst (updateRoutes inspect (Resolved cs) (table w))].
Proof.
  intros (Hcm & _) Hex Hn Hall. unfold pass_labels.
  rewrite trace_cons, step_resume by exact Hex. unfold on_resume.
  rewrite Hn. cbn [resume new_Map].
  destruct cs as [|c rest].
  - simpl. eexists. split; [reflexivity|].
    simpl. rewrite after_pass_table. unfold table, deref. simpl.
    rewrite app_nth2, Nat.sub_diag by lia. reflexivity.
  - inversion Hall as [|? ? Hc Hall']; subst.
    destruct (container_name c) as [nm|] eqn:Hnm; [|elim Hc; exact Hnm].
    unfold enter_loop. rewrite Hnm.
    set (w1 := set_heap (heap w ++ [JsMap.empty]) w).
    set (ref := length (heap w)).
    set (w' := set_inflight
                 (set_nth i (AwaitInspect ref c nm rest, caller) (inflight w1)) w1).
    assert (Hderef : deref w' ref = JsMap.empty).
    { unfold deref. simpl. subst ref. rewrite app_nth2, Nat.sub_diag by lia.
      reflexivity. }
    assert (Htable : table w' = table w).
    { unfold table, deref. simpl. apply app_nth1. exact Hcm. }
    destruct (solo_loop rest w' i caller ref c nm) as (ws & t & Ht & Hl & Hm); auto.
    + simpl. rewrite length_app. simpl. subst ref. lia.
    + simpl. subst ref. lia.
    + simpl. apply (nth_error_set_nth _ _ _ _ Hn).
    + rewrite Ht. exists (w' :: ws). split; [reflexivity|].
      rewrite Hderef in Hl. unfold updateRoutes.
      destruct (loop inspect JsMap.empty (c :: rest)) as [r l2]. simpl in Hl.
      subst r. change (map table (w' :: ws)) with (table w' :: map table ws).
      rewrite Hm, Htable. reflexivity.
Qed.

End SoloPass.

Section Interleaving.

Variable inspect : string -> Result ContainerDetails.

Lemma step_other_inflight (lbl : Label) (w w' : World) :
  (forall i r, lbl <> Resume i r) ->
  step lbl w = Some w' ->
  heap w' = heap w
  /\ containerMap w' = containerMap w
  /\ (inflight w' = inflight w
      \/ exists caller, inflight w' = inflight w ++ [(AwaitList, caller)]).
Proof.
  intros Hl. unfold step. destruct (is_some (exited w)); [discriminate|].
  destruct lbl as [r|i r|r|chunk|e| |d| |mg px|sv|sv e].
  - destruct (awaitingPing w); [|discriminate]. intros [= <-].
    destruct r; simpl; repeat split; eauto.
  - elim (Hl i r). reflexivity.
  - destruct (Nat.ltb 0 (subscribing w)); [|discriminate]. intros [= <-].
    destruct r; repeat split; auto.
  - destruct (is_some (eventStream w)); [|discriminate]. intros [= <-].
    destruct chunk as [msg|ev]; simpl; [repeat split; auto|].
    destruct (relevant ev); simpl; repeat split; eauto.
  - destruct (is_some (eventStream w)); [|discriminate]. intros [= <-].
    repeat split; auto.
  - destruct (is_some (eventStream w)); [|discriminate]. intros [= <-].
    repeat split; auto.
  - destruct (existsb (Nat.eqb d) (timers w)); [|discriminate].
    intros [= <-]. repeat split; auto.
  - destruct (initPending w); [discriminate|]. intros [= <-].
    repeat split; auto.
  - destruct (initPending w); [|discriminate]. intros [= <-].
    unfold on_init_resumes. destruct mg; [destruct px|]; repeat split; auto.
  - destruct (listening w); [|discriminate]. intros [= <-]. repeat split; auto.
  - destruct (listening w); [|discriminate]. intros [= <-]. repeat split; auto.
Qed.

Lemma whole_table_mono (D D' : list (list ContainerInfo)) (t : Table) :
  incl D D' -> whole_table inspect D t -> whole_table inspect D' t.
Proof.
  intros Hi [H|(cs & Hin & H)]; [left; exact H|]. right. exists cs. auto.
Qed.

(** A pass stays on course when the listings grow and its own map is
    left alone. *)
Lemma on_course_frame (D D' : list (list ContainerInfo)) (w w' : World)
  (l : list (Pass * Caller)) :
  incl D D' ->
  (forall r, In r (refs l) -> deref w' r = deref w r) ->
  Forall (on_course inspect D w) l -> Forall (on_course inspect D' w') l.
Proof.
  intros Hi Hd H. induction H as [|[p caller] l Hp _ IH]; constructor.
  - unfold on_course in *. simpl in *. destruct p as [|ref c nm rest]; [exact I|].
    destruct Hp as (Hn & cs & Hin & Hloop). split; [exact Hn|].
    exists cs. split; [auto|]. rewrite Hd; [exact Hloop | simpl; auto].
  - apply IH. intros r Hr. apply Hd. unfold refs in *. simpl.
    apply in_or_app. auto.
Qed.

Lemma coherent_mono (D D' : list (list ContainerInfo)) (w : World) :
  incl D D' -> coherent inspect D w -> coherent inspect D' w.
Proof.
  intros Hi (Hs & Ht & Hp). split; [exact Hs|]. split.
  - exact (whole_table_mono D D' _ Hi Ht).
  - apply (on_course_frame D D' w w); auto.
Qed.

(** Every step of a run keeps the table whole and the passes on
    course. *)
Lemma step_coherent (D : list (list ContainerInfo)) (lbl : Label) (w w' : World) :
  coherent inspect D w ->
  step lbl w = Some w' ->
  answered_by inspect lbl w ->
  coherent inspect (listings [lbl] ++ D) w'.
Proof.
  intros (Hsep & Htab & Hpass) Hstep Hans.
  pose proof (step_separate lbl w w' Hsep Hstep) as Hsep'.
  assert (Hi : incl D (listings [lbl] ++ D)) by (apply incl_appr, incl_refl).
  split; [exact Hsep'|].
  assert (Hres : (forall i r, lbl <> Resume i r) \/ exists i r, lbl = Resume i r).
  { destruct lbl; try (left; intros; discriminate). right. eauto. }
  destruct Hres as [Ho|(i & r & ->)].
  { destruct (step_other_inflight lbl w w' Ho Hstep) as (Eh & Ec & Ei).
    assert (Hd : forall r, deref w' r = deref w r)
      by (intros r; unfold deref; rewrite Eh; reflexivity).
    split.
    - unfold table. rewrite Ec, Hd. exact (whole_table_mono _ _ _ Hi Htab).
    - destruct Ei as [->|(caller & ->)].
      + apply (on_course_frame D _ w w'); auto.
      + apply Forall_app. split.
        * apply (on_course_frame D _ w w'); auto.
        * constructor; [exact I | constructor]. }
  destruct Hsep as (Hcm & Hlt & Hni & Hnd).
  unfold step in Hstep. destruct (is_some (exited w)); [discriminate|].
  destruct (on_resume_effect i r w w' Hstep)
    as (p & caller & l1 & l2 & Hn & Hl & _ & Hcase).
  rewrite Hl in Hpass. rewrite Hl, refs_app in Hlt, Hni, Hnd.
  simpl in Hlt, Hni, Hnd.
  apply Forall_app in Hpass as [Hp1 Hp2].
  inversion Hp2 as [|? ? Hp Hp2']; subst. clear Hp2.
  assert (Hothers : forall w2,
            (forall r', In r' (refs l1 ++ refs l2) -> deref w2 r' = deref w r') ->
            Forall (on_course inspect (listings [Resume i r] ++ D) w2) (l1 ++ l2)).
  { intros w2 Hd. apply Forall_app. split.
    - apply (on_course_frame D _ w w2); auto.
      intros r' Hr. apply Hd, in_or_app. auto.
    - apply (on_course_frame D _ w w2); auto.
      intros r' Hr. apply Hd, in_or_app. auto. }
  destruct Hcase as [(-> & Eh & Ec & Ei)|(ref & todo & Hkind & Hout)].
  { (* the listing was rejected *)
    assert (Hd : forall r, deref w' r = deref w r)
      by (intros r0; unfold deref; rewrite Eh; reflexivity).
    split.
    - unfold table. rewrite Ec, Hd. exact (whole_table_mono _ _ _ Hi Htab).
    - rewrite Ei. apply Hothers. auto. }
  destruct Hkind as [(-> & -> & Eh & ->)|(c & nm & ri & -> & -> & Eh)].
  - (* the listing was delivered and the pass has created its map *)
    simpl in Hlt, Hni, Hnd.
    assert (Hd : forall r', r' < length (heap w) -> deref w' r' = deref w r').
    { intros r' Hr. unfold deref. rewrite Eh. apply app_nth1. exact Hr. }
    assert (Hnew : deref w' (length (heap w)) = JsMap.empty).
    { unfold deref. rewrite Eh, app_nth2, Nat.sub_diag by lia. reflexivity. }
    assert (Hfr : forall r', In r' (refs l1 ++ refs l2) -> deref w' r' = deref w r').
    { intros r' Hr. apply Hd. rewrite Forall_forall in Hlt. auto. }
    assert (Hsame : containerMap w' = containerMap w ->
                    whole_table inspect (listings [Resume i (RList (Resolved todo))] ++ D)
                      (table w')).
    { intros Ec. unfold table. rewrite Ec, Hd by exact Hcm.
      exact (whole_table_mono _ _ _ Hi Htab). }
    destruct Hout as [(-> & Ec & Ei)|[(Ec & Ei & _)|(Ec & c & nm & rest & -> & Hnm & Ei)]].
    + split; [|rewrite Ei; apply Hothers; exact Hfr].
      left. unfold table. rewrite Ec. exact Hnew.
    + split; [exact (Hsame Ec) | rewrite Ei; apply Hothers; exact Hfr].
    + split; [exact (Hsame Ec)|]. rewrite Ei.
      pose proof (Hothers w' Hfr) as Ho. apply Forall_app in Ho as [Ho1 Ho2].
      apply Forall_app. split; [exact Ho1|]. constructor; [|exact Ho2].
      unfold on_course. cbn [fst]. split; [exact Hnm|].
      exists (c :: rest). split; [left; reflexivity|]. rewrite Hnew. reflexivity.
  - (* an [inspect] has settled *)
    simpl in Hlt, Hni, Hnd.
    assert (Hri : ri = inspect (Id c)) by (exact (Hans ref c nm todo caller Hn)).
    subst ri.
    set (m := fst (after_inspect (deref w ref) nm (inspect (Id c)))) in *.
    assert (Href : ref < length (heap w)).
    { apply Forall_app in Hlt as [_ H2]. inversion H2; assumption. }
    assert (Hd : forall r', r' <> ref -> deref w' r' = deref w r').
    { intros r' Hr. unfold deref. rewrite Eh. apply nth_set_nth_other. auto. }
    assert (Hnew : deref w' ref = m).
    { unfold deref. rewrite Eh. apply nth_set_nth_same. exact Href. }
    assert (Hfr : forall r', In r' (refs l1 ++ refs l2) -> deref w' r' = deref w r').
    { intros r' Hr. apply Hd. intros ->. apply NoDup_remove_2 in Hnd. auto. }
    assert (Hne : containerMap w <> ref).
    { intros E. apply Hni. rewrite E. apply in_or_app. simpl. auto. }
    assert (Hsame : containerMap w' = containerMap w ->
                    whole_table inspect (listings [Resume i (RInspect (inspect (Id c)))] ++ D)
                      (table w')).
    { intros Ec. unfold table. rewrite Ec, Hd by exact Hne.
      exact (whole_table_mono _ _ _ Hi Htab). }
    unfold on_course in Hp. cbn [fst] in Hp.
    destruct Hp as (Hnm & cs0 & Hin0 & Hloop).
    rewrite (fst_loop_cons inspect _ c nm _ Hnm) in Hloop. fold m in Hloop.
    destruct Hout as [(-> & Ec & Ei)|[(Ec & Ei & _)|(Ec & c' & nm' & rest & -> & Hnm' & Ei)]].
    + split; [|rewrite Ei; apply Hothers; exact Hfr].
      right. exists cs0. split; [apply Hi; exact Hin0|].
      unfold table. rewrite Ec, Hnew, <- Hloop. reflexivity.
    + split; [exact (Hsame Ec) | rewrite Ei; apply Hothers; exact Hfr].
    + split; [exact (Hsame Ec)|]. rewrite Ei.
      pose proof (Hothers w' Hfr) as Ho. apply Forall_app in Ho as [Ho1 Ho2].
      apply Forall_app. split; [exact Ho1|]. constructor; [|exact Ho2].
      unfold on_course. cbn [fst]. split; [exact Hnm'|].
      exists cs0. split; [apply Hi; exact Hin0|]. rewrite Hnew. exact Hloop.
Qed.

Lemma run_coherent (lbls : list Label) :
  forall (D : list (list ContainerInfo)) (w0 w : World),
    coherent inspect D w0 ->
    run lbls w0 = Some w ->
    follows inspect lbls w0 ->
    coherent inspect (listings lbls ++ D) w.
Proof.
  induction lbls as [|lbl lbls IH]; intros D w0 w H0 Hrun Hf; simpl in Hrun.
  - injection Hrun as <-. exact H0.
  - simpl in Hf. destruct Hf as [Ha Hf].
    destruct (step lbl w0) as [w1|] eqn:E; [|discriminate].
    pose proof (step_coherent D lbl w0 w1 H0 E Ha) as H1.
    pose proof (IH _ w1 w H1 Hrun Hf) as H2.
    apply (coherent_mono (listings lbls ++ listings [lbl] ++ D)); [|exact H2].
    change (lbl :: lbls) with ([lbl] ++ lbls).
    unfold listings. rewrite flat_map_app. fold (listings [lbl]).
    fold (listings lbls).
    intros cs Hin. apply in_app_or in Hin as [Hin|Hin].
    + apply in_or_app. left. apply in_or_app. auto.
    + apply in_app_or in Hin as [Hin|Hin].
      * apply in_or_app. left. apply in_or_app. auto.
      * apply in_or_app. auto.
Qed.

Lemma boot_coherent : coherent inspect [] boot.
Proof.
  split; [|split].
  - unfold separate, boot. simpl.
    repeat split; [lia | constructor | tauto | constructor].
  - left. reflexivity.
  - constructor.
Qed.

(** In every state of a run the live table is the empty one the process
    starts with or the whole table of a listing that was delivered. *)
Lemma run_whole_table (lbls : list Label) (w : World) :
  run lbls boot = Some w ->
  follows inspect lbls boot ->
  whole_table inspect (listings lbls) (table w).
Proof.
  intros Hrun Hf.
  destruct (run_coherent lbls [] boot w boot_coherent Hrun Hf) as (_ & H & _).
  rewrite app_nil_r in H. exact H.
Qed.

End Interleaving.

(** C1: Whole-table atomic replacement: in every state the process can
    reach, the maps that passes are filling are objects of their own,
    none of them the live table; no step changes the contents of the
    object that is the live table, and [containerMap] goes on referring to
    it unless the step is the last one of a pass with no listed workload
    left, which assigns the reference once. A pass over a listing leaves
    the live table as it was at each of its [await]s and ends with the
    table holding the entries of all the listed workloads; and however
    passes and other handlers interleave, the live table is the empty one
    the process starts with or the whole table of one listing, never part
    of one. *)
Theorem whole_table_replacement (w : World) :
  reachable w ->
  separate w
  /\ (forall lbl w',
        step lbl w = Some w' ->
        deref w' (containerMap w) = table w
        /\ ((containerMap w' = containerMap w /\ table w' = table w)
            \/ installs w lbl w'))
  /\ (forall inspect i caller cs,
        exited w = None ->
        nth_error (inflight w) i = Some (AwaitList, caller) ->
        Forall named cs ->
        exists ws,
          trace (pass_labels inspect i cs) w = Some ws
          /\ map table ws
             = repeat (table w) (length cs)
               ++ [set_all JsMap.empty (entries inspect cs)]
          /\ fst (updateRoutes inspect (Resolved cs) (table w))
             = set_all JsMap.empty (entries inspect cs))
  /\ (forall inspect lbls,
        run lbls boot = Some w ->
        follows inspect lbls boot ->
        whole_table inspect (listings lbls) (table w)).
Proof.
  intros Hr. pose proof (reachable_separate w Hr) as Hs.
  split; [exact Hs|]. split; [|split].
  - intros lbl w' Hstep. apply step_table; assumption.
  - intros inspect i caller cs Hex Hn Hall.
    destruct (solo_pass inspect w i caller cs Hs Hex Hn Hall) as (ws & Ht & Hm).
    rewrite updateRoutes_installed in Hm |- * by exact Hall.
    exists ws. repeat split; assumption.
  - intros inspect lbls Hrun Hf. apply run_whole_table; assumption.
Qed.

Lemma whole_table_replacement_witness :
  let ok := Resolved {| NetworkSettings := {| IPAddress := Some "172.17.0.2";
                                              Networks := None |};
                        Config := {| ExposedPorts := None |} |} in
  let cs := [ {| Id := "id-a"; Names := ["/a"] |};
              {| Id := "id-b"; Names := ["/b"] |} ] in
  exists ws,
    trace (pass_labels (fun _ => ok) 0 cs) (on_ping (Resolved tt) boot) = Some ws
    /\ map table ws
       = [ JsMap.empty; JsMap.empty;
           [("a", {| name := "a"; ip := "172.17.0.2"; port := "80" |});
            ("b", {| name := "b"; ip := "172.17.0.2"; port := "80" |})] ].
Proof.
  intros ok cs.
  assert (Hr : reachable (on_ping (Resolved tt) boot))
    by (exists [PingSettled (Resolved tt)]; reflexivity).
  destruct (whole_table_replacement _ Hr) as (_ & _ & H & _).
  assert (Hnamed : Forall named cs) by (repeat constructor; discriminate).
  destruct (H (fun _ => ok) 0 FromInit cs eq_refl eq_refl Hnamed)
    as (ws & Ht & Hm & _).
  exists ws. split; [exact Ht|]. rewrite Hm. reflexivity.
Defined.

(** ** The event loop *)

Section EventLoopFacts.

Lemma run_app (l1 l2 : list Label) (w : World) :
  run (l1 ++ l2) w = match run l1 w with
                     | Some w1 => run l2 w1
                     | None => None
                     end.
Proof.
  revert w; induction l1 as [|lbl l1 IH]; intros w; simpl; [reflexivity|].
  destruct (step lbl w); [apply IH | reflexivity].
Qed.

Lemma passes_started_log (l : list LogLine) (w : World) :
  passes_started (log l w)
  = passes_started w
    + length (filter (fun x => match x with LogUpdating => true | _ => false end) l).
Proof. unfold passes_started, log. simpl. rewrite filter_app, length_app. reflexivity. Qed.

(** A [data] event that is a container start, stop or die calls
    [updateRoutes] at once; any other chunk starts nothing. *)
Lemma on_data_effect (chunk : Chunk) (w : World) :
  let k := if triggers chunk then 1 else 0 in
  passes_started (on_data chunk w) = passes_started w + k
  /\ length (inflight (on_data chunk w)) = length (inflight w) + k
  /\ heap (on_data chunk w) = heap w
  /\ containerMap (on_data chunk w) = containerMap w
  /\ exited (on_data chunk w) = exited w
  /\ eventStream (on_data chunk w) = eventStream w.
Proof.
  destruct chunk as [msg|ev]; simpl.
  - rewrite passes_started_log. simpl. repeat split; lia.
  - destruct (relevant ev); simpl.
    + unfold start_pass. unfold passes_started. simpl.
      rewrite !filter_app, !length_app. simpl. repeat split; lia.
    + repeat split; lia.
Qed.

Lemma run_data (chunks : list Chunk) (w : World) :
  exited w = None ->
  is_some (eventStream w) = true ->
  exists w',
    run (map StreamData chunks) w = Some w'
    /\ passes_started w' = passes_started w + length (filter triggers chunks)
    /\ length (inflight w') = length (inflight w) + length (filter triggers chunks)
    /\ heap w' = heap w
    /\ containerMap w' = containerMap w
    /\ exited w' = None.
Proof.
  revert w; induction chunks as [|chunk chunks IH]; intros w Hex Hes.
  - exists w. simpl. repeat split; auto.
  - simpl run. unfold step. rewrite Hex, Hes. simpl is_some. cbv iota.
    destruct (on_data_effect chunk w) as (H1 & H2 & H0 & H3 & H4 & H5).
    cbv zeta in H1, H2.
    destruct (IH (on_data chunk w)) as (w' & Hr & G1 & G2 & G0 & G3 & G4).
    + congruence.
    + congruence.
    + exists w'. split; [exact Hr|]. simpl filter.
      destruct (triggers chunk); simpl length; repeat split; try congruence; lia.
Qed.

End EventLoopFacts.

(** C3: Every chunk of the event stream that [JSON.parse] turns into one
    container start, stop or die event calls [updateRoutes] by itself: N
    such chunks arriving while a pass is in progress start N more passes,
    all in flight together with it; nothing is queued, dropped or
    coalesced. A chunk on which [JSON.parse] throws (one that carries
    several events, or a part of one) and a chunk that is another event
    start no pass. The table is not touched by the arrival of the
    chunks. *)
Theorem every_event_starts_a_pass (w : World) (chunks : list Chunk) :
  exited w = None ->
  is_some (eventStream w) = true ->
  exists w',
    run (map StreamData chunks) w = Some w'
    /\ passes_started w' = passes_started w + length (filter triggers chunks)
    /\ length (inflight w') = length (inflight w) + length (filter triggers chunks)
    /\ heap w' = heap w
    /\ containerMap w' = containerMap w
    /\ exited w' = None.
Proof. apply run_data. Qed.

Lemma every_event_starts_a_pass_witness :
  exists w',
    run (map StreamData
           [Parsed {| ev_Type := "container"; ev_Action := "start" |};
            Parsed {| ev_Type := "container"; ev_Action := "die" |};
            Parsed {| ev_Type := "container"; ev_Action := "stop" |}])
        {| heap := [JsMap.empty]; containerMap := 0;
           inflight := [(AwaitList, FromEvent)];
           awaitingPing := false; subscribing := 0; eventStream := Some 1;
           timers := []; initPending := false; listening := true; exited := None;
           console := [LogUpdating] |} = Some w'
    /\ passes_started w' = 4
    /\ length (inflight w') = 4.
Proof.
  destruct (every_event_starts_a_pass
              {| heap := [JsMap.empty]; containerMap := 0;
           inflight := [(AwaitList, FromEvent)];
                 awaitingPing := false; subscribing := 0; eventStream := Some 1;
                 timers := []; initPending := false; listening := true; exited := None;
                 console := [LogUpdating] |}
              [Parsed {| ev_Type := "container"; ev_Action := "start" |};
               Parsed {| ev_Type := "container"; ev_Action := "die" |};
               Parsed {| ev_Type := "container"; ev_Action := "stop" |}]
              eq_refl eq_refl) as (w' & Hrun & Hp & Hi & _).
  exists w'. split; [exact Hrun|]. split; [exact Hp | exact Hi].
Defined.

(** Neither mutual exclusion nor coalescing holds: from the state reached
    when the pass of a first event is in flight, two more events start
    two more passes, and three passes are in flight at once. *)
Lemma events_are_not_coalesced : ~ one_pass_at_a_time /\ ~ coalesces.
Proof.
  set (start := Parsed {| ev_Type := "container"; ev_Action := "start" |}).
  set (die := Parsed {| ev_Type := "container"; ev_Action := "die" |}).
  set (pre := [PingSettled (Resolved tt); Resume 0 (RList (Resolved []));
               InitResumes (Resolved tt) (Resolved tt);
               GetEventsCalledBack (Resolved 1); StreamData start]).
  destruct (run pre boot) as [w|] eqn:Hw; [|discriminate Hw].
  destruct (run (map StreamData [start; die]) w) as [w'|] eqn:Hw';
    [|vm_compute in Hw; injection Hw as <-; discriminate Hw'].
  assert (Rw : reachable w) by (exists pre; exact Hw).
  assert (Rw' : reachable w').
  { exists (pre ++ map StreamData [start; die]). rewrite run_app, Hw. exact Hw'. }
  vm_compute in Hw. injection Hw as <-.
  vm_compute in Hw'. injection Hw' as <-.
  split.
  - intros H. specialize (H _ Rw'). vm_compute in H.
    repeat apply le_S_n in H. inversion H.
  - intros H. specialize (H _ [start; die] _ Rw eq_refl eq_refl eq_refl).
    vm_compute in H. repeat apply le_S_n in H. inversion H.
Qed.

Section FeedFacts.

Lemma existsb_last (d : nat) (t : list nat) :
  existsb (Nat.eqb d) (t ++ [d]) = true.
Proof.
  rewrite existsb_app. simpl. rewrite Nat.eqb_refl. apply orb_true_iff.
  right. reflexivity.
Qed.

Lemma remove_first_length (d : nat) (t : list nat) :
  length (remove_first d (t ++ [d])) = length t.
Proof.
  induction t as [|x t IH]; simpl.
  - rewrite Nat.eqb_refl. reflexivity.
  - destruct (Nat.eqb x d); simpl.
    + rewrite length_app. simpl. lia.
    + rewrite IH. reflexivity.
Qed.

(** The timer set by a failure fires and calls [getEvents] again. *)
Lemma timer_reconnects (d : nat) (w : World) :
  exited w = None ->
  exists w',
    step (TimerFires d) (setTimeout d w) = Some w'
    /\ subscribing w' = S (subscribing w)
    /\ exited w' = None
    /\ length (timers w') = length (timers w)
    /\ eventStream w' = eventStream w.
Proof.
  intros Hex. unfold step. simpl exited. rewrite Hex. simpl is_some. cbv iota.
  unfold setTimeout at 1. simpl timers at 1. rewrite existsb_last.
  eexists. split; [reflexivity|]. simpl.
  rewrite remove_first_length. auto.
Qed.

(** One loss of the feed, whatever its kind, ends with the listener
    subscribing again. *)
Lemma round_reconnects (f : FeedFailure) (w : World) :
  exited w = None -> 0 < subscribing w ->
  exists w',
    run (failure_round f) w = Some w'
    /\ subscribing w' = subscribing w
    /\ exited w' = None
    /\ length (timers w') = length (timers w).
Proof.
  intros Hex Hsub.
  assert (Hlt : Nat.ltb 0 (subscribing w) = true) by (apply Nat.ltb_lt; exact Hsub).
  destruct f as [e|s e|s]; simpl run; unfold step at 1; rewrite Hex, Hlt;
    simpl is_some; cbv iota.
  - change (on_getEvents (Rejected e) w)
      with (setTimeout 5000
              (log [ErrEventStream (message e)]
                 (set_subscribing (pred (subscribing w)) w))).
    destruct (timer_reconnects 5000
                (log [ErrEventStream (message e)]
                   (set_subscribing (pred (subscribing w)) w)) Hex)
      as (w' & Hs & H1 & H2 & H3 & _).
    simpl backoff. rewrite Hs. exists w'. simpl in H1, H3.
    repeat split; auto; lia.
  - set (w1 := on_getEvents (Resolved s) w).
    unfold step at 1. change (exited w1) with (exited w). rewrite Hex.
    simpl is_some. cbv iota.
    change (on_error e w1)
      with (setTimeout 5000 (log [ErrEventStream (message e)] w1)).
    destruct (timer_reconnects 5000 (log [ErrEventStream (message e)] w1) Hex)
      as (w' & Hs & H1 & H2 & H3 & _).
    simpl backoff. rewrite Hs. exists w'. simpl in H1, H3.
    repeat split; auto; lia.
  - set (w1 := on_getEvents (Resolved s) w).
    unfold step at 1. change (exited w1) with (exited w). rewrite Hex.
    simpl is_some. cbv iota.
    change (on_end w1) with (setTimeout 1000 (log [WarnStreamEnded] w1)).
    destruct (timer_reconnects 1000 (log [WarnStreamEnded] w1) Hex)
      as (w' & Hs & H1 & H2 & H3 & _).
    simpl backoff. rewrite Hs. exists w'. simpl in H1, H3.
    repeat split; auto; lia.
Qed.

Lemma rounds_reconnect (fs : list FeedFailure) (w : World) :
  exited w = None -> 0 < subscribing w ->
  exists w',
    run (concat (map failure_round fs)) w = Some w'
    /\ subscribing w' = subscribing w
    /\ exited w' = None
    /\ length (timers w') = length (timers w).
Proof.
  revert w; induction fs as [|f fs IH]; intros w Hex Hsub.
  - exists w. simpl. auto.
  - destruct (round_reconnects f w Hex Hsub) as (w1 & Hr & H1 & H2 & H3).
    destruct (IH w1 H2 ltac:(lia)) as (w' & Hr' & G1 & G2 & G3).
    exists w'. simpl. rewrite run_app, Hr. repeat split; try congruence.
Qed.

End FeedFacts.

(** C9: Feed reconnect backoff: when [getEvents] calls back with an
    error, or the stream emits an error, [setupDockerEventListener] is set
    to run again after 5000 ms; when the stream ends it is set to run
    again after 1000 ms; a timer that fires calls [getEvents] again; and
    after any number of losses of the feed, of any kind, the listener is
    subscribing once more: nothing counts the attempts. *)
Theorem feed_reconnect_backoff (w : World) :
  exited w = None ->
  (forall e, 0 < subscribing w ->
     exists w', step (GetEventsCalledBack (Rejected e)) w = Some w'
                /\ timers w' = timers w ++ [5000] /\ exited w' = None)
  /\ (forall e, is_some (eventStream w) = true ->
        exists w', step (StreamError e) w = Some w'
                   /\ timers w' = timers w ++ [5000] /\ exited w' = None)
  /\ (is_some (eventStream w) = true ->
        exists w', step StreamEnd w = Some w'
                   /\ timers w' = timers w ++ [1000] /\ exited w' = None)
  /\ (forall d, existsb (Nat.eqb d) (timers w) = true ->
        exists w', step (TimerFires d) w = Some w'
                   /\ subscribing w' = S (subscribing w)
                   /\ timers w' = remove_first d (timers w)
                   /\ exited w' = None)
  /\ (forall fs, 0 < subscribing w ->
        exists w', run (concat (map failure_round fs)) w = Some w'
                   /\ subscribing w' = subscribing w
                   /\ exited w' = None
                   /\ length (timers w') = length (timers w)).
Proof.
  intros Hex. repeat split.
  - intros e Hsub. unfold step. rewrite Hex.
    apply Nat.ltb_lt in Hsub. rewrite Hsub. simpl.
    eexists. split; [reflexivity|]. split; [reflexivity | exact Hex].
  - intros e Hs. unfold step. rewrite Hex, Hs. simpl.
    eexists. split; [reflexivity|]. split; [reflexivity | exact Hex].
  - intros Hs. unfold step. rewrite Hex, Hs. simpl.
    eexists. split; [reflexivity|]. split; [reflexivity | exact Hex].
  - intros d Hd. unfold step. rewrite Hex, Hd. simpl.
    eexists. split; [reflexivity|]. repeat split. exact Hex.
  - intros fs Hsub. apply rounds_reconnect; assumption.
Qed.

Lemma feed_reconnect_backoff_witness :
  exists w',
    run (concat (map failure_round
                   [SubscribeFails {| message := "ECONNREFUSED" |};
                    StreamEnds 3;
                    StreamFails 4 {| message := "aborted" |}]))
        {| heap := [JsMap.empty]; containerMap := 0; inflight := [];
           awaitingPing := false;
           subscribing := 1; eventStream := None; timers := []; initPending := false;
           listening := true; exited := None; console := [] |} = Some w'
    /\ subscribing w' = 1
    /\ exited w' = None
    /\ length (timers w') = 0.
Proof.
  destruct (feed_reconnect_backoff
              {| heap := [JsMap.empty]; containerMap := 0; inflight := [];
           awaitingPing := false;
                 subscribing := 1; eventStream := None; timers := []; initPending := false;
                 listening := true; exited := None; console := [] |} eq_refl)
    as (_ & _ & _ & _ & H).
  apply H. simpl. lia.
Defined.

(** ** The error handler *)

Section ErrorHandlerFacts.

Lemma dispatch_forward (cm : Table) (req : Request) (host target : string) :
  fst (dispatch cm req) = Forward host target ->
  dispatch cm req = (Forward host target, [LogProxying host target]).
Proof.
  unfold dispatch. destruct (negb (Js.truthy (request_host req))); [discriminate|].
  destruct (request_host req) as [h|]; [|discriminate].
  destruct (JsMap.get cm (container_key h)); [|discriminate].
  simpl. intros [= <- <-]. reflexivity.
Qed.

End ErrorHandlerFacts.

(** C8: Uncaught-failure conversion: a failure raised in the forwarding
    path of a request does not propagate; [errorHandler] answers it with
    status 500 and the JSON body whose [error] is "Internal server error".
    The 502 answers are those of an unknown name and of a proxy error
    reported to [onError] before any header was sent. *)
Theorem uncaught_failure_gets_500 (cm : Table) (req : Request)
  (host target : string) (e : Error) :
  fst (dispatch cm req) = Forward host target ->
  proxyApp cm req (Raised e)
    = (Json 500 (ErrorBody "Internal server error"),
       [LogProxying host target; ErrUnhandled (message e)])
  /\ errorHandler e
    = (Json 500 (ErrorBody "Internal server error"), [ErrUnhandled (message e)])
  /\ proxyApp cm req (ProxyError e false)
    = (Json 502 (ProxyErrorBody "Proxy error" target (message e)),
       [LogProxying host target; LogProxyReq target;
        ErrProxy host (message e)])
  /\ fst (proxyApp cm req (ProxyError e true)) = NothingMore.
Proof.
  intros H. apply dispatch_forward in H. unfold proxyApp. rewrite H.
  repeat split.
Qed.

Lemma uncaught_failure_gets_500_witness :
  fst (proxyApp [("nginx", {| name := "nginx"; ip := "172.17.0.2"; port := "80" |})]
         (request_for "nginx.localhost") (Raised {| message := "socket hang up" |}))
  = Json 500 (ErrorBody "Internal server error").
Proof.
  destruct (uncaught_failure_gets_500
              [("nginx", {| name := "nginx"; ip := "172.17.0.2"; port := "80" |})]
              (request_for "nginx.localhost")
              "nginx.localhost" "http://172.17.0.2:80"
              {| message := "socket hang up" |} eq_refl) as (H & _).
  rewrite H. reflexivity.
Defined.

(** The answer to a failure raised while a request for a known name is
    forwarded has status 500, not 502. *)
Lemma uncaught_failure_is_not_502 : ~ uncaught_failure_gets_502.
Proof.
  intros H.
  destruct (H [("nginx", {| name := "nginx"; ip := "172.17.0.2"; port := "80" |})]
              (request_for "nginx.localhost")
              "nginx.localhost" "http://172.17.0.2:80"
              {| message := "socket hang up" |} eq_refl) as (body & Hb).
  vm_compute in Hb. discriminate Hb.
Qed.

(* ================================================================== *)
(** * Part III: further properties of the program                      *)
(* ================================================================== *)

(** ** What a resolved endpoint is made of *)

Section ResolveSoundness.

Lemma split0_no_char (c : ascii) (s : string) : has_char c (Js.split0 c s) = false.
Proof.
  induction s as [|a s IH]; simpl; [reflexivity|].
  destruct (Ascii.eqb a c) eqn:E; simpl; [reflexivity|]. rewrite E. exact IH.
Qed.

Lemma select_port_ok (d : ContainerDetails) :
  select_port d <> "" /\ has_char "/" (select_port d) = false.
Proof.
  unfold select_port.
  destruct (hd_error (Js.keys match ExposedPorts (Config d) with
                              | Some o => o
                              | None => []
                              end)) as [k|]; simpl.
  - pose proof (split0_no_char "/" k) as H.
    destruct (Js.split0 "/" k); simpl; [split; [discriminate | reflexivity]|].
    split; [discriminate | exact H].
  - split; [discriminate | reflexivity].
Qed.

Lemma scan_networks_in (nets : Js.Obj Network) (a : string) :
  scan_networks nets = Some a ->
  a <> "" /\ exists k n, In (k, n) nets /\ net_IPAddress n = Some a.
Proof.
  induction nets as [|[k n] nets IH]; simpl; [discriminate|].
  destruct (Js.truthy (net_IPAddress n)) eqn:E.
  - intros H. rewrite H in E. split; [apply truthy_some; exact E|].
    exists k, n. auto.
  - intros H. destruct (IH H) as (Ha & k' & n' & Hin & Hn).
    split; [exact Ha|]. exists k', n'. auto.
Qed.

Lemma select_ip_source (d : ContainerDetails) (a : string) :
  select_ip d = Some a -> a <> "" ->
  IPAddress (NetworkSettings d) = Some a
  \/ (Js.truthy (IPAddress (NetworkSettings d)) = false
      /\ exists nets k n,
           Networks (NetworkSettings d) = Some nets
           /\ In (k, n) nets /\ net_IPAddress n = Some a).
Proof.
  unfold select_ip. destruct (Js.truthy (IPAddress (NetworkSettings d))) eqn:E.
  - auto.
  - destruct (Networks (NetworkSettings d)) as [nets|]; [|auto].
    destruct (scan_networks nets) as [b|] eqn:Es; [|auto].
    intros [= ->] _. right. split; [reflexivity|].
    destruct (scan_networks_in nets a Es) as (_ & k & n & Hin & Hn).
    exists nets, k, n. auto.
Qed.

Lemma resolve_entry_ok (nm : string) (d : ContainerDetails) (e : Endpoint) :
  resolve nm d = Some e -> entry_ok (nm, e).
Proof.
  unfold resolve, entry_ok. simpl.
  destruct (Js.truthy (select_ip d)) eqn:E; simpl; [|discriminate].
  destruct (select_ip d) as [a|]; [|discriminate].
  intros [= <-]. simpl. destruct (select_port_ok d) as [Hp Hs].
  repeat split; try assumption. apply truthy_some. exact E.
Qed.

End ResolveSoundness.

(** X1: A resolved endpoint carries the name it was resolved for, an
    address that is not empty and that the metadata holds (the primary
    address, or the address of an attached network when the primary one is
    empty or missing), and a port that is not empty and has no slash. *)
Theorem resolved_endpoint_sound (nm : string) (d : ContainerDetails) (e : Endpoint) :
  resolve nm d = Some e ->
  name e = nm
  /\ ip e <> ""
  /\ port e <> ""
  /\ has_char "/" (port e) = false
  /\ (IPAddress (NetworkSettings d) = Some (ip e)
      \/ (Js.truthy (IPAddress (NetworkSettings d)) = false
          /\ exists nets k n,
               Networks (NetworkSettings d) = Some nets
               /\ In (k, n) nets /\ net_IPAddress n = Some (ip e))).
Proof.
  intros H. destruct (resolve_entry_ok nm d e H) as (Hn & Hi & Hp & Hs).
  simpl in *. repeat split; try assumption.
  apply select_ip_source; [|exact Hi].
  unfold resolve in H. destruct (negb (Js.truthy (select_ip d))); [discriminate|].
  destruct (select_ip d) as [a|]; [|discriminate]. injection H as <-. reflexivity.
Qed.

Lemma resolved_endpoint_sound_witness :
  ip {| name := "db"; ip := "10.1.0.7"; port := "5432" |} <> ""
  /\ has_char "/" (port {| name := "db"; ip := "10.1.0.7"; port := "5432" |}) = false.
Proof.
  destruct (resolved_endpoint_sound "db"
              {| NetworkSettings :=
                   {| IPAddress := None;
                      Networks := Some [("backend", {| net_IPAddress := Some "10.1.0.7" |})] |};
                 Config := {| ExposedPorts := Some [("5432/tcp", tt)] |} |}
              {| name := "db"; ip := "10.1.0.7"; port := "5432" |} eq_refl)
    as (_ & Hi & _ & Hs & _).
  split; assumption.
Defined.

(** ** Tables as passes leave them *)

Section TableShape.

Lemma get_in {V} (m : JsMap.t V) (k : string) (v : V) :
  JsMap.get m k = Some v -> In (k, v) m.
Proof.
  induction m as [|[k' v'] m IH]; simpl; [discriminate|].
  destruct (String.eqb_spec k' k) as [->|_].
  - intros [= ->]. auto.
  - auto.
Qed.

Lemma in_get {V} (m : JsMap.t V) (k : string) (v : V) :
  NoDup (JsMap.keys m) -> In (k, v) m -> JsMap.get m k = Some v.
Proof.
  induction m as [|[k' v'] m IH]; simpl; intros Hnd Hin; [contradiction|].
  inversion Hnd as [|? ? Hni Hnd']; subst.
  destruct Hin as [[= -> ->]|Hin].
  - rewrite String.eqb_refl. reflexivity.
  - destruct (String.eqb_spec k' k) as [->|_]; [|auto].
    elim Hni. change k with (fst (k, v)). apply in_map. exact Hin.
Qed.

Lemma keys_set_present (m : Table) (k : string) (e : Endpoint) :
  In k (JsMap.keys m) -> JsMap.keys (JsMap.set m k e) = JsMap.keys m.
Proof.
  induction m as [|[k' v'] m IH]; simpl; intros H; [contradiction|].
  destruct (String.eqb_spec k' k) as [->|Hne]; simpl; [reflexivity|].
  rewrite IH; [reflexivity|]. destruct H; [contradiction | assumption].
Qed.

Lemma set_nodup (m : Table) (k : string) (e : Endpoint) :
  NoDup (JsMap.keys m) -> NoDup (JsMap.keys (JsMap.set m k e)).
Proof.
  intros H. destruct (in_dec string_dec k (JsMap.keys m)) as [Hin|Hni].
  - rewrite keys_set_present by exact Hin. exact H.
  - rewrite keys_set_absent.
    + apply (Permutation_NoDup (Permutation_cons_append (JsMap.keys m) k)).
      constructor; assumption.
    + destruct (JsMap.get m k) eqn:E; [|reflexivity].
      elim Hni. apply get_keys. congruence.
Qed.

Lemma set_forall (P : string * Endpoint -> Prop) (m : Table) (k : string)
  (e : Endpoint) :
  Forall P m -> P (k, e) -> Forall P (JsMap.set m k e).
Proof.
  intros Hm Hk. induction Hm as [|[k' v'] m Hx Hm IH]; simpl.
  - constructor; [exact Hk | constructor].
  - destruct (String.eqb_spec k' k) as [->|_]; constructor; auto.
Qed.

Lemma after_inspect_ok (m : Table) (nm : string) (r : Result ContainerDetails) :
  table_ok m -> table_ok (fst (after_inspect m nm r)).
Proof.
  intros [Hnd Hall]. unfold after_inspect.
  destruct r as [d|err]; [|split; assumption].
  destruct (resolve nm d) as [ep|] eqn:E; [|split; assumption].
  split; [apply set_nodup; exact Hnd|].
  apply set_forall; [exact Hall | exact (resolve_entry_ok nm d ep E)].
Qed.

Lemma empty_ok : table_ok JsMap.empty.
Proof. split; constructor. Qed.

Lemma loop_ok (inspect : string -> Result ContainerDetails)
  (cs : list ContainerInfo) :
  forall m t, table_ok m -> fst (loop inspect m cs) = Some t -> table_ok t.
Proof.
  induction cs as [|c cs IH]; intros m t Hm; simpl.
  - intros [= <-]. exact Hm.
  - destruct (container_name c) as [nm|]; [|discriminate].
    pose proof (after_inspect_ok m nm (inspect (Id c)) Hm) as H1.
    destruct (after_inspect m nm (inspect (Id c))) as [m' l1]. simpl in H1.
    specialize (IH m' t H1). destruct (loop inspect m' cs) as [r l2].
    simpl in *. exact IH.
Qed.

(** Every [Map] a pass has created holds well-formed entries under
    distinct keys, whatever the runtime has answered. *)
Lemma step_heap_ok (lbl : Label) (w w' : World) :
  Forall table_ok (heap w) -> step lbl w = Some w' -> Forall table_ok (heap w').
Proof.
  intros Hh Hstep.
  assert (Hres : (forall i r, lbl <> Resume i r) \/ exists i r, lbl = Resume i r).
  { destruct lbl; try (left; intros; discriminate). right. eauto. }
  destruct Hres as [Ho|(i & r & ->)].
  { destruct (step_other lbl w w' Ho Hstep) as (Eh & _). rewrite Eh. exact Hh. }
  unfold step in Hstep. destruct (is_some (exited w)); [discriminate|].
  destruct (on_resume_effect i r w w' Hstep)
    as (p & caller & l1 & l2 & _ & _ & _ & Hcase).
  destruct Hcase as [(_ & Eh & _)|(ref & todo & Hkind & _)].
  { rewrite Eh. exact Hh. }
  destruct Hkind as [(_ & _ & Eh & _)|(c & nm & ri & _ & _ & Eh)]; rewrite Eh.
  - apply Forall_app. split; [exact Hh|]. constructor; [exact empty_ok | constructor].
  - assert (Hd : table_ok (deref w ref)).
    { unfold deref. destruct (nth_in_or_default ref (heap w) JsMap.empty) as [Hin | ->].
      - rewrite Forall_forall in Hh. auto.
      - exact empty_ok. }
    pose proof (after_inspect_ok (deref w ref) nm ri Hd) as Hm.
    set (m0 := fst (after_inspect (deref w ref) nm ri)) in *. clearbody m0.
    clear - Hh Hm. revert ref.
    induction Hh as [|t h Ht Hh IH]; intros [|ref]; simpl; constructor; auto.
Qed.

Lemma reachable_table_ok (w : World) : reachable w -> table_ok (table w).
Proof.
  intros [lbls Hrun].
  assert (H : forall lbls w0, Forall table_ok (heap w0) ->
                run lbls w0 = Some w -> Forall table_ok (heap w)).
  { clear. induction lbls as [|lbl lbls IH]; intros w0 H0; simpl.
    - intros [= <-]. exact H0.
    - destruct (step lbl w0) as [w1|] eqn:E; [|discriminate].
      apply IH. exact (step_heap_ok lbl w0 w1 H0 E). }
  assert (Hh : Forall table_ok (heap w)).
  { apply (H lbls boot); [|exact Hrun]. repeat constructor. }
  unfold table, deref.
  destruct (nth_in_or_default (containerMap w) (heap w) JsMap.empty) as [Hin | ->].
  - rewrite Forall_forall in Hh. auto.
  - exact empty_ok.
Qed.

End TableShape.

(** X2: In every state the process can reach, the live table has distinct
    keys, each entry is stored under its own name with an address and a
    port that are not empty, and every endpoint the table holds is found
    again by looking its name up. *)
Theorem reachable_table_well_formed (w : World) :
  reachable w ->
  NoDup (JsMap.keys (table w))
  /\ (forall k e, JsMap.get (table w) k = Some e ->
        name e = k /\ ip e <> "" /\ port e <> ""
        /\ has_char "/" (port e) = false)
  /\ (forall e, In e (JsMap.values (table w)) ->
        JsMap.get (table w) (name e) = Some e).
Proof.
  intros Hr. destruct (reachable_table_ok w Hr) as [Hnd Hall].
  rewrite Forall_forall in Hall. split; [exact Hnd|]. split.
  - intros k e Hg. exact (Hall (k, e) (get_in _ _ _ Hg)).
  - intros e Hin. apply in_map_iff in Hin as ([k e'] & <- & Hin). simpl.
    destruct (Hall _ Hin) as (Hn & _). simpl in Hn. rewrite Hn.
    apply in_get; assumption.
Qed.

Lemma reachable_table_well_formed_witness :
  let ok := Resolved {| NetworkSettings := {| IPAddress := Some "172.17.0.2";
                                              Networks := None |};
                        Config := {| ExposedPorts := None |} |} in
  let lbls := [PingSettled (Resolved tt);
               Resume 0 (RList (Resolved [ {| Id := "1"; Names := ["/a"] |} ]));
               Resume 0 (RInspect ok)] in
  let w := match run lbls boot with Some w => w | None => boot end in
  NoDup (JsMap.keys (table w)).
Proof.
  intros ok lbls w.
  assert (Hr : reachable w) by (exists lbls; vm_compute; reflexivity).
  destruct (reachable_table_well_formed w Hr) as (H & _). exact H.
Defined.

Section RoutesAndProxy.

Local Open Scope string_scope.

Lemma route_entries_in (cm : Table) (h t : string) :
  In (h, t) (route_entries cm) <->
  exists e, In e (JsMap.values cm) /\ h = name e ++ ".localhost" /\ t = target_of e.
Proof.
  unfold route_entries. rewrite in_map_iff. split.
  - intros (e & [= <- <-] & Hin). exists e. auto.
  - intros (e & Hin & -> & ->). exists e. auto.
Qed.

Lemma dispatch_known (cm : Table) (n p : string) (e : Endpoint) :
  JsMap.get cm n = Some e ->
  has_char ":" n = false -> occurs ".localhost" n = false ->
  fst (dispatch cm (request_for (n ++ ".localhost")))
    = Forward (n ++ ".localhost") (target_of e)
  /\ fst (dispatch cm (request_for ((n ++ ".localhost") ++ ":" ++ p)))
    = Forward (n ++ ".localhost") (target_of e).
Proof.
  intros Hg Hc Ho.
  assert (Hs : Js.split0 ":" (n ++ ".localhost") = n ++ ".localhost").
  { apply split0_absent. rewrite has_char_app, Hc. reflexivity. }
  assert (H : fst (dispatch cm (request_for (n ++ ".localhost")))
              = Forward (n ++ ".localhost") (target_of e)).
  { rewrite dispatch_host; rewrite Hs; [|destruct n; discriminate].
    cbv zeta. cbn [fst]. rewrite container_key_suffix by exact Ho.
    unfold routed_by. rewrite Hg. reflexivity. }
  split; [exact H|]. rewrite dispatch_port. exact H.
Qed.

End RoutesAndProxy.

(** X3: What [/routes] lists is what the proxy does: in every reachable
    state, each listed host name is some table key followed by
    [.localhost], and when that key has neither a colon nor [.localhost]
    inside, a request for the listed host name, with or without a port,
    is forwarded to the listed target. *)
Theorem routes_listing_is_served (w : World) (h t : string) :
  reachable w ->
  In (h, t) (route_entries (table w)) ->
  routes (table w) = Json 200 (RoutesBody (route_entries (table w)))
  /\ exists n e,
       h = (n ++ ".localhost")%string
       /\ JsMap.get (table w) n = Some e
       /\ t = target_of e
       /\ (has_char ":" n = false -> occurs ".localhost" n = false ->
           fst (dispatch (table w) (request_for h)) = Forward h t
           /\ forall p,
                fst (dispatch (table w) (request_for (h ++ ":" ++ p)%string))
                = Forward h t).
Proof.
  intros Hr Hin. split; [reflexivity|].
  apply route_entries_in in Hin as (e & He & -> & ->).
  destruct (reachable_table_ok w Hr) as [Hnd Hall].
  rewrite Forall_forall in Hall.
  apply in_map_iff in He as ([k e'] & <- & Hke). simpl.
  destruct (Hall _ Hke) as (Hn & _). simpl in Hn.
  pose proof (in_get _ _ _ Hnd Hke) as Hg.
  exists k, e'. rewrite Hn. repeat split; try assumption.
  - apply (dispatch_known (table w) k "" e'); assumption.
  - intros p. apply (dispatch_known (table w) k p e'); assumption.
Qed.

Lemma routes_listing_is_served_witness :
  let ok := Resolved {| NetworkSettings := {| IPAddress := Some "172.17.0.2";
                                              Networks := None |};
                        Config := {| ExposedPorts := None |} |} in
  let lbls := [PingSettled (Resolved tt);
               Resume 0 (RList (Resolved [ {| Id := "1"; Names := ["/a"] |} ]));
               Resume 0 (RInspect ok)] in
  let w := match run lbls boot with Some w => w | None => boot end in
  fst (dispatch (table w) (request_for "a.localhost"))
  = Forward "a.localhost" "http://172.17.0.2:80".
Proof.
  intros ok lbls w.
  assert (Hr : reachable w) by (exists lbls; vm_compute; reflexivity).
  destruct (routes_listing_is_served w "a.localhost" "http://172.17.0.2:80" Hr)
    as (_ & n & e & Hh & Hg & Ht & H).
  - left. reflexivity.
  - assert (Hn : n = "a").
    { apply (append_cancel_r n "a" ".localhost"). symmetry. exact Hh. }
    subst n. destruct (H eq_refl eq_refl) as [H1 _]. exact H1.
Defined.

(** X4: In every reachable state the host names of [/routes] are pairwise
    distinct, [/routes] and [/health] list the workloads in the order of
    the table's keys, and the names offered by the 502 answer are exactly
    the host names of [/routes]. *)
Theorem routes_listing_distinct (w : World) :
  reachable w ->
  NoDup (map fst (route_entries (table w)))
  /\ map name (JsMap.values (table w)) = JsMap.keys (table w)
  /\ available_routes (table w) = map fst (route_entries (table w))
  /\ health (table w) = Json 200 (HealthBody (JsMap.values (table w)))
  /\ length (route_entries (table w)) = JsMap.size (table w).
Proof.
  intros Hr. destruct (reachable_table_ok w Hr) as [Hnd Hall].
  assert (Hnames : map name (JsMap.values (table w)) = JsMap.keys (table w)).
  { unfold JsMap.values, JsMap.keys. rewrite map_map.
    apply map_ext_in. intros [k e] Hin. rewrite Forall_forall in Hall.
    destruct (Hall _ Hin) as (Hn & _). exact Hn. }
  assert (Hav : available_routes (table w) = map fst (route_entries (table w))).
  { unfold available_routes, route_entries. rewrite <- Hnames, !map_map.
    reflexivity. }
  split; [|split; [exact Hnames|split; [exact Hav|split; [reflexivity|]]]].
  - rewrite <- Hav. unfold available_routes.
    apply Finite.Injective_map_NoDup; [|exact Hnd].
    intros a b H. exact (append_cancel_r a b ".localhost" H).
  - unfold route_entries, JsMap.values, JsMap.size. rewrite !length_map.
    reflexivity.
Qed.

Lemma routes_listing_distinct_witness :
  let ok := Resolved {| NetworkSettings := {| IPAddress := Some "172.17.0.2";
                                              Networks := None |};
                        Config := {| ExposedPorts := None |} |} in
  let a := {| Id := "id-a"; Names := ["/a"] |} in
  let b := {| Id := "id-b"; Names := ["/b"] |} in
  let lbls := [PingSettled (Resolved tt);
               Resume 0 (RList (Resolved [a; b]));
               Resume 0 (RInspect ok); Resume 0 (RInspect ok)] in
  let w := match run lbls boot with Some w => w | None => boot end in
  map fst (route_entries (table w)) = ["a.localhost"; "b.localhost"]
  /\ NoDup (map fst (route_entries (table w))).
Proof.
  intros ok a b lbls w.
  assert (Hr : reachable w) by (exists lbls; vm_compute; reflexivity).
  destruct (routes_listing_distinct w Hr) as (H & _).
  split; [reflexivity | exact H].
Defined.

(** ** What the proxy middleware answers *)

Section MiddlewareAnswers.

Local Open Scope string_scope.

Lemma split0_empty (c : ascii) (s : string) :
  Js.split0 c s = "" <-> s = "" \/ exists t, s = String c t.
Proof.
  destruct s as [|a s]; simpl.
  - split; auto.
  - destruct (Ascii.eqb_spec a c) as [->|Hne].
    + split; [right; eauto | reflexivity].
    + split; [discriminate|]. intros [H|[t H]]; [discriminate|].
      injection H as H _. contradiction.
Qed.

Lemma get_in_values (cm : Table) (k : string) (e : Endpoint) :
  JsMap.get cm k = Some e -> In e (JsMap.values cm).
Proof.
  intros H. apply get_in in H. unfold JsMap.values.
  change e with (snd (k, e)). apply in_map. exact H.
Qed.

End MiddlewareAnswers.

(** X5: The middleware never forwards to a target outside the table: when
    it forwards, the request has a host name left after its port is cut,
    the key looked up holds an endpoint, the target is the URL of that
    endpoint, and [/routes] lists that target. *)
Theorem forward_target_is_in_table (cm : Table) (req : Request)
  (host target : string) :
  fst (dispatch cm req) = Forward host target ->
  request_host req = Some host
  /\ host <> ""
  /\ exists e,
       JsMap.get cm (container_key host) = Some e
       /\ In e (JsMap.values cm)
       /\ target = target_of e
       /\ In target (map snd (route_entries cm)).
Proof.
  unfold dispatch.
  destruct (request_host req) as [h|]; simpl; [|discriminate].
  destruct h as [|a h]; simpl; [discriminate|].
  destruct (JsMap.get cm (container_key (String a h))) as [e|] eqn:Hg;
    simpl; [|discriminate].
  intros [= <- <-]. split; [reflexivity|]. split; [discriminate|].
  exists e. pose proof (get_in_values _ _ _ Hg) as Hin.
  repeat split; try assumption.
  unfold route_entries. rewrite map_map. simpl.
  apply in_map_iff. exists e. auto.
Qed.

Lemma forward_target_is_in_table_witness :
  exists e,
    JsMap.get [("api", {| name := "api"; ip := "172.17.0.3"; port := "3000" |})]
              (container_key "api.localhost") = Some e
    /\ "http://172.17.0.3:3000" = target_of e.
Proof.
  destruct (forward_target_is_in_table
              [("api", {| name := "api"; ip := "172.17.0.3"; port := "3000" |})]
              (request_for "api.localhost:8080")
              "api.localhost" "http://172.17.0.3:3000" eq_refl)
    as (_ & _ & e & Hg & _ & Ht & _).
  exists e. split; assumption.
Defined.

(** X6: The middleware answers 400 exactly when no host name is left once
    the port is cut: the header is missing, empty, or starts with a colon.
    Its only other answer of its own is 502, and the proxy application
    never answers a JSON body with a status other than 400, 500 and 502. *)
Theorem status_of_answers (cm : Table) (req : Request) :
  ((exists b, fst (dispatch cm req) = Respond 400 b)
   <-> (host_header req = None
        \/ host_header req = Some ""%string
        \/ exists t, host_header req = Some (String ":" t)))
  /\ (forall st b, fst (dispatch cm req) = Respond st b -> st = 400 \/ st = 502)
  /\ (forall po st b, fst (proxyApp cm req po) = Json st b ->
        st = 400 \/ st = 500 \/ st = 502).
Proof.
  assert (H400 : forall st b, fst (dispatch cm req) = Respond st b ->
                   st = 400 \/ st = 502).
  { unfold dispatch. intros st b.
    destruct (request_host req) as [[|a h]|]; simpl;
      try (intros [= <- _]; auto).
    destruct (JsMap.get cm (container_key (String a h))); simpl;
      [discriminate | intros [= <- _]; auto]. }
  split; [|split; [exact H400|]].
  - unfold dispatch, request_host. destruct req as [[hdr|]]; simpl.
    + pose proof (split0_empty ":" hdr) as Hs.
      destruct (Js.split0 ":" hdr) as [|a h] eqn:E; simpl.
      * split; [|eauto]. intros _. right.
        destruct (proj1 Hs eq_refl) as [->|[t ->]]; eauto.
      * split.
        -- destruct (JsMap.get cm (container_key (String a h))); simpl;
             intros [b Hb]; discriminate.
        -- intros [H|[H|[t H]]]; try discriminate.
           ++ injection H as ->. discriminate.
           ++ injection H as ->. simpl in E. discriminate.
    + split; [auto | eauto].
  - intros po st b. unfold proxyApp.
    destruct (dispatch cm req) as [[st' b'|host target] l] eqn:E.
    + simpl. intros [= <- <-].
      destruct (H400 st' b' eq_refl) as [-> | ->]; auto.
    + destruct po as [ust|e sent|e]; simpl.
      * discriminate.
      * destruct sent; simpl; [discriminate | intros [= <- _]; auto].
      * intros [= <- _]. auto.
Qed.

Lemma status_of_answers_witness :
  exists b, fst (dispatch JsMap.empty (request_for ":8080")) = Respond 400 b.
Proof.
  destruct (status_of_answers JsMap.empty (request_for ":8080")) as ((_ & H) & _).
  apply H. right. right. exists "8080". reflexivity.
Defined.

(** ** What a completed pass leaves in the table *)

Section CompletedPass.

Variable inspect : string -> Result ContainerDetails.

Lemma container_name_none (c : ContainerInfo) :
  container_name c = None <-> Names c = [].
Proof.
  unfold container_name. destruct (Names c); simpl; split; congruence.
Qed.

Lemma loop_none (cs : list ContainerInfo) (m : Table) :
  fst (loop inspect m cs) = None <-> Exists (fun c => Names c = []) cs.
Proof.
  revert m; induction cs as [|c cs IH]; intros m; simpl.
  - split; [discriminate | intros H; inversion H].
  - destruct (container_name c) as [nm|] eqn:E.
    + destruct (after_inspect m nm (inspect (Id c))) as [m' l1].
      specialize (IH m'). destruct (loop inspect m' cs) as [r l2]. simpl in *.
      rewrite IH. split; [intros H; right; exact H|].
      intros H. inversion H as [? ? Hc|? ? Hc]; subst; [|exact Hc].
      apply container_name_none in Hc. congruence.
    + simpl. split; [|reflexivity]. intros _. left.
      apply container_name_none. exact E.
Qed.

Lemma loop_named (cs : list ContainerInfo) :
  Forall named cs <-> ~ Exists (fun c => Names c = []) cs.
Proof.
  split.
  - intros H He. apply Exists_exists in He as (c & Hin & Hc).
    rewrite Forall_forall in H. apply (H c Hin).
    apply container_name_none. exact Hc.
  - intros H. apply Forall_forall. intros c Hin Hc. apply H.
    apply Exists_exists. exists c. split; [exact Hin|].
    apply container_name_none. exact Hc.
Qed.

Lemma get_set (m : Table) (k n : string) (e : Endpoint) :
  JsMap.get (JsMap.set m k e) n = if String.eqb k n then Some e else JsMap.get m n.
Proof.
  destruct (String.eqb_spec k n) as [->|Hne].
  - apply get_set_same.
  - apply get_set_other. exact Hne.
Qed.

Lemma get_entries (cs : list ContainerInfo) (m : Table) (n : string) :
  JsMap.get (set_all m (entries inspect cs)) n
  = match last_resolved inspect n cs with
    | Some e => Some e
    | None => JsMap.get m n
    end.
Proof.
  revert m; induction cs as [|c cs IH]; intros m; simpl; [reflexivity|].
  destruct (container_name c) as [nm|] eqn:En.
  - destruct (endpoint_of inspect c) as [e|] eqn:Ee.
    + unfold set_all in *. simpl. rewrite IH, get_set.
      destruct (last_resolved inspect n cs); [reflexivity|].
      destruct (String.eqb nm n); reflexivity.
    + rewrite IH. destruct (last_resolved inspect n cs); [reflexivity|].
      destruct (String.eqb nm n); reflexivity.
  - rewrite IH. destruct (last_resolved inspect n cs); reflexivity.
Qed.

Lemma last_resolved_none (cs : list ContainerInfo) (n : string) :
  (forall c, In c cs -> container_name c = Some n -> endpoint_of inspect c = None) ->
  last_resolved inspect n cs = None.
Proof.
  induction cs as [|c cs IH]; intros H; simpl; [reflexivity|].
  rewrite IH by (intros c' Hin; apply H; right; exact Hin).
  destruct (container_name c) as [m|] eqn:E; [|reflexivity].
  destruct (String.eqb_spec m n) as [->|_]; [|reflexivity].
  apply H; [left; reflexivity | exact E].
Qed.

Lemma last_resolved_last (before after : list ContainerInfo) (c : ContainerInfo)
  (n : string) (e : Endpoint) :
  container_name c = Some n ->
  endpoint_of inspect c = Some e ->
  (forall c', In c' after -> container_name c' = Some n ->
              endpoint_of inspect c' = None) ->
  last_resolved inspect n (before ++ c :: after) = Some e.
Proof.
  intros Hn He Hafter. induction before as [|b before IH]; simpl.
  - rewrite (last_resolved_none after n Hafter), Hn, String.eqb_refl. exact He.
  - rewrite IH. reflexivity.
Qed.

Lemma entries_keys_in (cs : list ContainerInfo) (k : string) :
  In k (map fst (entries inspect cs)) <->
  exists c, In c cs /\ container_name c = Some k /\ endpoint_of inspect c <> None.
Proof.
  induction cs as [|c cs IH]; simpl.
  - split; [contradiction | intros (c & [] & _)].
  - destruct (container_name c) as [nm|] eqn:En.
    + destruct (endpoint_of inspect c) as [e|] eqn:Ee; simpl; rewrite IH; split.
      * intros [<-|(c' & Hin & H)].
        -- exists c. split; [auto|]. split; [exact En | congruence].
        -- exists c'. auto.
      * intros (c' & [<-|Hin] & Hn & He).
        -- left. congruence.
        -- right. exists c'. auto.
      * intros (c' & Hin & H). exists c'. auto.
      * intros (c' & [<-|Hin] & Hn & He); [congruence|]. exists c'. auto.
    + rewrite IH. split.
      * intros (c' & Hin & H). exists c'. auto.
      * intros (c' & [<-|Hin] & Hn & He); [congruence|]. exists c'. auto.
Qed.

Lemma keys_set_all_in (es : list (string * Endpoint)) (m : Table) (k : string) :
  In k (JsMap.keys (set_all m es)) <-> In k (JsMap.keys m) \/ In k (map fst es).
Proof.
  rewrite !get_keys. split.
  - intros H. destruct (in_dec string_dec k (map fst es)) as [Hi|Hni]; [auto|].
    left. rewrite get_set_all_other in H by exact Hni. exact H.
  - intros [H|H].
    + destruct (in_dec string_dec k (map fst es)) as [Hi|Hni].
      * apply get_set_all_some. exact Hi.
      * rewrite get_set_all_other by exact Hni. exact H.
    + apply get_set_all_some. exact H.
Qed.

Lemma size_set (m : Table) (k : string) (e : Endpoint) :
  JsMap.size (JsMap.set m k e) <= S (JsMap.size m).
Proof.
  unfold JsMap.size. induction m as [|[k' v'] m IH]; simpl; [lia|].
  destruct (String.eqb k' k); simpl; lia.
Qed.

Lemma size_set_all (es : list (string * Endpoint)) (m : Table) :
  JsMap.size (set_all m es) <= JsMap.size m + length es.
Proof.
  revert m; induction es as [|[k e] es IH]; intros m; unfold set_all in *; simpl.
  - lia.
  - specialize (IH (JsMap.set m k e)). pose proof (size_set m k e). simpl in *. lia.
Qed.

Lemma entries_length (cs : list ContainerInfo) :
  length (entries inspect cs) <= length cs.
Proof.
  induction cs as [|c cs IH]; simpl; [lia|].
  destruct (container_name c), (endpoint_of inspect c); simpl; lia.
Qed.

Lemma entries_none (cs : list ContainerInfo) :
  Forall (fun c => endpoint_of inspect c = None) cs -> entries inspect cs = [].
Proof.
  induction 1 as [|c cs Hc _ IH]; simpl; [reflexivity|].
  rewrite Hc. destruct (container_name c); exact IH.
Qed.

End CompletedPass.

Section CompletedPassProperties.

Variable inspect : string -> Result ContainerDetails.

(** X7: Last seen wins: after a pass over named workloads, looking a name
    up gives the endpoint of the last listed workload of that name that
    resolved, and nothing when no listed workload of that name resolved,
    whatever the table held before. *)
Theorem lookup_after_pass (cm : Table) (cs : list ContainerInfo) :
  Forall named cs ->
  (forall n, JsMap.get (fst (updateRoutes inspect (Resolved cs) cm)) n
             = last_resolved inspect n cs)
  /\ (forall before c after n e,
        cs = before ++ c :: after ->
        container_name c = Some n ->
        endpoint_of inspect c = Some e ->
        (forall c', In c' after -> container_name c' = Some n ->
                    endpoint_of inspect c' = None) ->
        JsMap.get (fst (updateRoutes inspect (Resolved cs) cm)) n = Some e)
  /\ (forall n,
        (forall c, In c cs -> container_name c = Some n ->
                   endpoint_of inspect c = None) ->
        JsMap.get (fst (updateRoutes inspect (Resolved cs) cm)) n = None).
Proof.
  intros Hall.
  assert (H : forall n, JsMap.get (fst (updateRoutes inspect (Resolved cs) cm)) n
                        = last_resolved inspect n cs).
  { intros n. rewrite updateRoutes_installed by exact Hall. cbn [fst].
    rewrite get_entries. destruct (last_resolved inspect n cs); reflexivity. }
  split; [exact H|]. split.
  - intros before c after n e -> Hn He Hafter. rewrite H.
    apply last_resolved_last; assumption.
  - intros n Hnone. rewrite H. apply last_resolved_none. exact Hnone.
Qed.

(** X8: After a pass over named workloads the keys of the table are
    exactly the names of the listed workloads that resolved, so a name of
    the previous table that is no longer listed is gone; the table has at
    most as many entries as workloads were listed; and when the resolved
    names are distinct the keys stand in listing order. *)
Theorem keys_after_pass (cm : Table) (cs : list ContainerInfo) :
  Forall named cs ->
  let t := fst (updateRoutes inspect (Resolved cs) cm) in
  (forall k, In k (JsMap.keys t) <->
             exists c, In c cs /\ container_name c = Some k
                       /\ endpoint_of inspect c <> None)
  /\ JsMap.size t <= length cs
  /\ (NoDup (map fst (entries inspect cs)) ->
      JsMap.keys t = map fst (entries inspect cs)).
Proof.
  intros Hall t. subst t. rewrite updateRoutes_installed by exact Hall.
  cbn [fst]. split; [|split].
  - intros k. rewrite keys_set_all_in, <- entries_keys_in. simpl. tauto.
  - pose proof (size_set_all (entries inspect cs) JsMap.empty) as H1.
    pose proof (entries_length inspect cs) as H2.
    unfold JsMap.size in *. simpl in *. lia.
  - intros Hnd. rewrite keys_set_all by exact Hnd. reflexivity.
Qed.

(** X9: When the listing succeeds but no listed workload resolves, in
    particular when nothing is listed, the pass installs the empty table,
    dropping the previous routes, and every request that names a host is
    then answered 502 with no available route. *)
Theorem pass_without_routes (cm : Table) (cs : list ContainerInfo) :
  Forall named cs ->
  Forall (fun c => endpoint_of inspect c = None) cs ->
  fst (updateRoutes inspect (Resolved cs) cm) = JsMap.empty
  /\ forall hdr po,
       Js.split0 ":" hdr <> "" ->
       fst (proxyApp (fst (updateRoutes inspect (Resolved cs) cm))
              (request_for hdr) po)
       = Json 502 (NoRouteBody
                     ("No container mapped for hostname: " ++ Js.split0 ":" hdr)%string
                     []).
Proof.
  intros Hall Hnone.
  assert (H : fst (updateRoutes inspect (Resolved cs) cm) = JsMap.empty).
  { rewrite updateRoutes_installed by exact Hall. cbn [fst].
    rewrite (entries_none inspect cs Hnone). reflexivity. }
  split; [exact H|]. intros hdr po Hne. rewrite H. unfold proxyApp.
  rewrite dispatch_host by exact Hne. reflexivity.
Qed.

(** X10: A listed workload without a name stops the pass: the loop ends
    in the outer [catch] exactly when some listed workload has an empty
    [Names], and then the table is the previous one, the routes resolved
    before that workload are discarded, and the failure is printed. *)
Theorem unnamed_workload_aborts_pass (cm : Table) (cs : list ContainerInfo) :
  (fst (loop inspect JsMap.empty cs) = None
   <-> Exists (fun c => Names c = []) cs)
  /\ (Exists (fun c => Names c = []) cs ->
      fst (updateRoutes inspect (Resolved cs) cm) = cm
      /\ In (ErrUpdating undefined_replace)
            (snd (updateRoutes inspect (Resolved cs) cm))
      /\ forall n, ~ In (LogTotal n) (snd (updateRoutes inspect (Resolved cs) cm))).
Proof.
  split; [apply loop_none|]. intros He.
  apply (loop_none inspect cs JsMap.empty) in He.
  assert (Hlog : forall m l,
            snd (loop inspect m cs) = l -> fst (loop inspect m cs) = None ->
            In (ErrUpdating undefined_replace) l /\ forall n, ~ In (LogTotal n) l).
  { clear. induction cs as [|c cs IH]; intros m l; simpl.
    - discriminate.
    - destruct (container_name c) as [nm|].
      + destruct (after_inspect m nm (inspect (Id c))) as [m' l1] eqn:Ea.
        specialize (IH m'). destruct (loop inspect m' cs) as [r l2]. simpl in *.
        intros <- Hr. destruct (IH l2 eq_refl Hr) as [H1 H2]. split.
        * apply in_or_app. auto.
        * intros n Hin. apply in_app_or in Hin as [Hin|Hin]; [|exact (H2 n Hin)].
          unfold after_inspect in Ea. destruct (inspect (Id c)) as [d|err].
          -- destruct (resolve nm d); injection Ea as _ <-;
               destruct Hin as [Hin|[]]; discriminate.
          -- injection Ea as _ <-. destruct Hin as [Hin|[]]; discriminate.
      + simpl. intros <- _. split; [left; reflexivity|].
        intros n [Hin|[]]. discriminate. }
  unfold updateRoutes.
  destruct (loop inspect JsMap.empty cs) as [[t|] l] eqn:E; simpl in He;
    [discriminate|].
  destruct (Hlog JsMap.empty l) as [H1 H2]; [rewrite E; reflexivity ..|].
  simpl. split; [reflexivity|]. split; [right; exact H1|].
  intros n [Hin|Hin]; [discriminate | exact (H2 n Hin)].
Qed.

(** X11: A pass that completes prints one line for each listed workload,
    between its first line and the total: the route for a workload that
    resolved, the warning or the error for one that did not. *)
Theorem pass_prints_one_line_each (cm : Table) (cs : list ContainerInfo) :
  Forall named cs ->
  exists lines,
    snd (updateRoutes inspect (Resolved cs) cm)
    = LogUpdating :: lines
      ++ [LogTotal (JsMap.size (fst (updateRoutes inspect (Resolved cs) cm)))]
    /\ length lines = length cs
    /\ forall c nm, In c cs -> container_name c = Some nm ->
         match endpoint_of inspect c with
         | Some e => In (LogRoute nm (ip e) (port e)) lines
         | None => In (WarnNoIp nm) lines \/ exists msg, In (ErrInspect nm msg) lines
         end.
Proof.
  intros Hall.
  pose proof (updateRoutes_installed inspect cs cm Hall) as Hup. cbv zeta in Hup.
  exists (snd (loop inspect JsMap.empty cs)). rewrite Hup. cbn [fst snd].
  split; [reflexivity|].
  generalize (@JsMap.empty Endpoint). clear Hup.
  induction Hall as [|c cs Hc Hall IH]; intros m; simpl.
  - split; [reflexivity | intros c nm []].
  - destruct (container_name c) as [nm|] eqn:En; [|elim Hc; exact En].
    assert (Hline : exists line,
              snd (after_inspect m nm (inspect (Id c))) = [line]
              /\ match endpoint_of inspect c with
                 | Some e => line = LogRoute nm (ip e) (port e)
                 | None => line = WarnNoIp nm \/ exists msg, line = ErrInspect nm msg
                 end).
    { unfold endpoint_of, after_inspect. rewrite En.
      destruct (inspect (Id c)) as [d|err].
      - destruct (resolve nm d) as [e|]; eexists; split; try reflexivity; auto.
      - eexists. split; [reflexivity|]. right. eauto. }
    destruct Hline as (line & Hl & Hkind).
    destruct (after_inspect m nm (inspect (Id c))) as [m' l1]. simpl in Hl.
    subst l1. destruct (IH m') as [Hlen Hin].
    destruct (loop inspect m' cs) as [r l2]. simpl in *.
    split; [rewrite Hlen; reflexivity|].
    intros c' nm' [<-|Hc'] Hn'.
    + rewrite En in Hn'. injection Hn' as <-.
      destruct (endpoint_of inspect c) as [e|].
      * left. exact Hkind.
      * destruct Hkind as [->|[msg ->]]; [left; left; reflexivity|].
        right. exists msg. left. reflexivity.
    + specialize (Hin c' nm' Hc' Hn').
      destruct (endpoint_of inspect c') as [e|].
      * right. exact Hin.
      * destruct Hin as [Hin|[msg Hin]]; [left; right; exact Hin|].
        right. exists msg. right. exact Hin.
Qed.

(** X12: Reconciliation is idempotent: a second pass that gets the same
    answers leaves the table the first pass left, whether the listing was
    rejected, aborted or completed; and the table a completed pass leaves
    does not depend on the table it started from. *)
Theorem reconciliation_idempotent (listing : Result (list ContainerInfo))
  (cm cm' : Table) :
  fst (updateRoutes inspect listing (fst (updateRoutes inspect listing cm)))
  = fst (updateRoutes inspect listing cm)
  /\ (forall cs, listing = Resolved cs -> Forall named cs ->
        fst (updateRoutes inspect listing cm)
        = fst (updateRoutes inspect listing cm')).
Proof.
  split.
  - unfold updateRoutes. destruct listing as [cs|e]; [|reflexivity].
    destruct (loop inspect JsMap.empty cs) as [[t|] l]; reflexivity.
  - intros cs -> Hall. rewrite !updateRoutes_installed by exact Hall.
    reflexivity.
Qed.

End CompletedPassProperties.

Lemma lookup_after_pass_witness :
  let details := fun a =>
    Resolved {| NetworkSettings := {| IPAddress := Some a; Networks := None |};
                Config := {| ExposedPorts := None |} |} in
  let inspect := fun id => if String.eqb id "1" then details "172.17.0.2"
                           else details "172.17.0.9" in
  JsMap.get (fst (updateRoutes inspect
                    (Resolved [ {| Id := "1"; Names := ["/web"] |};
                                {| Id := "2"; Names := ["/web"] |} ])
                    JsMap.empty)) "web"
  = Some {| name := "web"; ip := "172.17.0.9"; port := "80" |}.
Proof.
  intros details inspect.
  destruct (lookup_after_pass inspect JsMap.empty
              [ {| Id := "1"; Names := ["/web"] |};
                {| Id := "2"; Names := ["/web"] |} ]) as (H & _).
  - repeat constructor; discriminate.
  - rewrite H. reflexivity.
Defined.

Lemma keys_after_pass_witness :
  let ok := Resolved {| NetworkSettings := {| IPAddress := Some "172.17.0.2";
                                              Networks := None |};
                        Config := {| ExposedPorts := None |} |} in
  let inspect := fun id => if String.eqb id "2"
                           then Rejected {| message := "no such container" |}
                           else ok in
  JsMap.size (fst (updateRoutes inspect
                     (Resolved [ {| Id := "1"; Names := ["/a"] |};
                                 {| Id := "2"; Names := ["/b"] |} ])
                     [("old", {| name := "old"; ip := "10.0.0.1"; port := "80" |})]))
  <= 2.
Proof.
  intros ok inspect.
  destruct (keys_after_pass inspect
              [("old", {| name := "old"; ip := "10.0.0.1"; port := "80" |})]
              [ {| Id := "1"; Names := ["/a"] |};
                {| Id := "2"; Names := ["/b"] |} ]) as (_ & H & _).
  - repeat constructor; discriminate.
  - exact H.
Defined.

Lemma pass_without_routes_witness :
  fst (updateRoutes (fun _ => Rejected {| message := "gone" |})
         (Resolved [ {| Id := "1"; Names := ["/a"] |} ])
         [("a", {| name := "a"; ip := "10.0.0.1"; port := "80" |})])
  = JsMap.empty.
Proof.
  destruct (pass_without_routes (fun _ => Rejected {| message := "gone" |})
              [("a", {| name := "a"; ip := "10.0.0.1"; port := "80" |})]
              [ {| Id := "1"; Names := ["/a"] |} ]) as (H & _).
  - repeat constructor; discriminate.
  - repeat constructor.
  - exact H.
Defined.

Lemma unnamed_workload_aborts_pass_witness :
  let ok := Resolved {| NetworkSettings := {| IPAddress := Some "172.17.0.2";
                                              Networks := None |};
                        Config := {| ExposedPorts := None |} |} in
  fst (updateRoutes (fun _ => ok)
         (Resolved [ {| Id := "1"; Names := ["/a"] |};
                     {| Id := "2"; Names := [] |} ])
         [("old", {| name := "old"; ip := "10.0.0.1"; port := "80" |})])
  = [("old", {| name := "old"; ip := "10.0.0.1"; port := "80" |})].
Proof.
  intros ok.
  destruct (unnamed_workload_aborts_pass (fun _ => ok)
              [("old", {| name := "old"; ip := "10.0.0.1"; port := "80" |})]
              [ {| Id := "1"; Names := ["/a"] |};
                {| Id := "2"; Names := [] |} ]) as (_ & H).
  destruct H as (H & _).
  - right. left. reflexivity.
  - exact H.
Defined.

Lemma pass_prints_one_line_each_witness :
  exists lines,
    snd (updateRoutes (fun _ => Rejected {| message := "gone" |})
           (Resolved [ {| Id := "1"; Names := ["/a"] |} ]) JsMap.empty)
    = LogUpdating :: lines ++ [LogTotal 0]
    /\ length lines = 1.
Proof.
  destruct (pass_prints_one_line_each (fun _ => Rejected {| message := "gone" |})
              JsMap.empty [ {| Id := "1"; Names := ["/a"] |} ])
    as (lines & H1 & H2 & _).
  - repeat constructor; discriminate.
  - exists lines. split; [exact H1 | exact H2].
Defined.

Lemma reconciliation_idempotent_witness :
  let ok := Resolved {| NetworkSettings := {| IPAddress := Some "172.17.0.2";
                                              Networks := None |};
                        Config := {| ExposedPorts := None |} |} in
  let listing := Resolved [ {| Id := "1"; Names := ["/a"] |} ] in
  fst (updateRoutes (fun _ => ok) listing JsMap.empty)
  = fst (updateRoutes (fun _ => ok) listing
           [("old", {| name := "old"; ip := "10.0.0.1"; port := "80" |})]).
Proof.
  intros ok listing.
  destruct (reconciliation_idempotent (fun _ => ok) listing JsMap.empty
              [("old", {| name := "old"; ip := "10.0.0.1"; port := "80" |})])
    as (_ & H).
  apply (H [ {| Id := "1"; Names := ["/a"] |} ]); [reflexivity|].
  repeat constructor; discriminate.
Defined.

(** ** Start-up and shutdown *)

Section Startup.







End Startup.



(** ** Reconnection timers *)

Section LossesAndTimers.

Lemma losses_set_timers (ls : list StreamLoss) :
  forall w,
    exited w = None -> is_some (eventStream w) = true ->
    exists w',
      run (map loss_label ls) w = Some w'
      /\ timers w' = timers w ++ map loss_delay ls
      /\ subscribing w' = subscribing w
      /\ exited w' = None
      /\ heap w' = heap w /\ containerMap w' = containerMap w
      /\ inflight w' = inflight w.
Proof.
  induction ls as [|l ls IH]; intros w Hex Hes.
  - exists w. simpl. rewrite app_nil_r. repeat split; auto.
  - simpl run. unfold step. rewrite Hex, Hes. simpl is_some. cbv iota.
    destruct l as [e|]; simpl loss_label; cbv iota.
    + destruct (IH (on_error e w) Hex Hes) as (w' & Hr & Ht & Hs & Hx & Hh & Hc & Hi).
      exists w'. split; [exact Hr|]. rewrite Ht. simpl.
      rewrite <- app_assoc. repeat split; auto.
    + destruct (IH (on_end w) Hex Hes) as (w' & Hr & Ht & Hs & Hx & Hh & Hc & Hi).
      exists w'. split; [exact Hr|]. rewrite Ht. simpl.
      rewrite <- app_assoc. repeat split; auto.
Qed.

Lemma timers_fire_in_order (ds : list nat) :
  forall w,
    exited w = None -> timers w = ds ->
    exists w',
      run (map TimerFires ds) w = Some w'
      /\ timers w' = []
      /\ subscribing w' = subscribing w + length ds
      /\ exited w' = None
      /\ heap w' = heap w /\ containerMap w' = containerMap w
      /\ inflight w' = inflight w.
Proof.
  induction ds as [|d ds IH]; intros w Hex Ht.
  - exists w. simpl. repeat split; auto.
  - simpl run. unfold step. rewrite Hex, Ht. simpl is_some. cbv iota.
    simpl existsb. rewrite Nat.eqb_refl. simpl orb. cbv iota.
    simpl remove_first. rewrite Nat.eqb_refl.
    destruct (IH (setupDockerEventListener (set_timers ds w)) Hex eq_refl)
      as (w' & Hr & Ht' & Hs & Hx & Hh & Hc & Hi).
    exists w'. split; [exact Hr|]. simpl in Hs. simpl.
    repeat split; auto; lia.
Qed.

End LossesAndTimers.

(** X14: Reconnections are not merged: each error and each end reported
    on the stream sets a timer of its own, in the order they arrive (5000
    ms for an error, 1000 ms for an end), and once these timers have
    fired there is one more pending [getEvents] call for each of them.
    Neither the table nor the passes in flight are touched. *)
Theorem each_loss_resubscribes (w : World) (ls : list StreamLoss) :
  exited w = None ->
  is_some (eventStream w) = true ->
  timers w = [] ->
  exists w1 w2,
    run (map loss_label ls) w = Some w1
    /\ timers w1 = map loss_delay ls
    /\ subscribing w1 = subscribing w
    /\ run (map TimerFires (map loss_delay ls)) w1 = Some w2
    /\ timers w2 = []
    /\ subscribing w2 = subscribing w + length ls
    /\ table w2 = table w
    /\ inflight w2 = inflight w
    /\ exited w2 = None.
Proof.
  intros Hex Hes Ht.
  destruct (losses_set_timers ls w Hex Hes)
    as (w1 & Hr1 & Ht1 & Hs1 & Hx1 & Hh1 & Hc1 & Hi1).
  rewrite Ht in Ht1. simpl in Ht1.
  destruct (timers_fire_in_order (map loss_delay ls) w1 Hx1 Ht1)
    as (w2 & Hr2 & Ht2 & Hs2 & Hx2 & Hh2 & Hc2 & Hi2).
  exists w1, w2. rewrite length_map in Hs2.
  repeat split; try assumption; try congruence.
  unfold table, deref. congruence.
Qed.

Lemma each_loss_resubscribes_witness :
  exists w1 w2,
    run [StreamError {| message := "aborted" |}; StreamEnd]
        {| heap := [JsMap.empty]; containerMap := 0; inflight := [];
           awaitingPing := false; subscribing := 0; eventStream := Some 1;
           timers := []; initPending := false; listening := true; exited := None; console := [] |}
    = Some w1
    /\ timers w1 = [5000; 1000]
    /\ run [TimerFires 5000; TimerFires 1000] w1 = Some w2
    /\ subscribing w2 = 2.
Proof.
  destruct (each_loss_resubscribes
              {| heap := [JsMap.empty]; containerMap := 0; inflight := [];
                 awaitingPing := false; subscribing := 0; eventStream := Some 1;
                 timers := []; initPending := false; listening := true; exited := None; console := [] |}
              [LossError {| message := "aborted" |}; LossEnd]
              eq_refl eq_refl eq_refl)
    as (w1 & w2 & H1 & H2 & _ & H3 & _ & H4 & _).
  exists w1, w2. repeat split; assumption.
Defined.

(** ** Where live routes come from *)

Section RouteOrigin.

Variable inspect : string -> Result ContainerDetails.

Lemma last_resolved_some (cs : list ContainerInfo) (n : string) (e : Endpoint) :
  last_resolved inspect n cs = Some e ->
  exists c, In c cs /\ container_name c = Some n /\ endpoint_of inspect c = Some e.
Proof.
  induction cs as [|c cs IH]; simpl; [discriminate|].
  destruct (last_resolved inspect n cs) as [e'|].
  - intros [= ->]. destruct (IH eq_refl) as (c' & Hin & H). exists c'. auto.
  - destruct (container_name c) as [m|] eqn:E; [|discriminate].
    destruct (String.eqb_spec m n) as [->|_]; [|discriminate].
    intros H. exists c. auto.
Qed.

Lemma loop_some (cs : list ContainerInfo) (t : Table) :
  fst (loop inspect JsMap.empty cs) = Some t ->
  Forall named cs /\ t = set_all JsMap.empty (entries inspect cs).
Proof.
  intros H.
  assert (Hall : Forall named cs).
  { apply loop_named. intros He. apply (loop_none inspect cs JsMap.empty) in He.
    congruence. }
  split; [exact Hall|]. rewrite (loop_table inspect cs JsMap.empty Hall) in H.
  congruence.
Qed.

End RouteOrigin.

(** X15: No route is invented: along any run whose [inspect] answers are
    those of [inspect], however passes and events interleave, an endpoint
    found in the live table under a name is the endpoint that a workload
    of that name, listed in one of the delivered listings, resolved to. *)
Theorem live_routes_come_from_listings
  (inspect : string -> Result ContainerDetails) (lbls : list Label)
  (w : World) (k : string) (e : Endpoint) :
  run lbls boot = Some w ->
  follows inspect lbls boot ->
  JsMap.get (table w) k = Some e ->
  exists cs c,
    In cs (listings lbls) /\ In c cs
    /\ container_name c = Some k
    /\ endpoint_of inspect c = Some e.
Proof.
  intros Hrun Hf Hg.
  destruct (run_whole_table inspect lbls w Hrun Hf) as [H|(cs & Hin & H)].
  - rewrite H in Hg. discriminate.
  - apply loop_some in H as [_ H]. rewrite H, get_entries in Hg.
    destruct (last_resolved inspect k cs) as [e'|] eqn:El; [|discriminate].
    injection Hg as ->.
    destruct (last_resolved_some inspect cs k e El) as (c & Hc & Hn & He).
    exists cs, c. auto.
Qed.

Lemma live_routes_come_from_listings_witness :
  let ok := Resolved {| NetworkSettings := {| IPAddress := Some "172.17.0.2";
                                              Networks := None |};
                        Config := {| ExposedPorts := None |} |} in
  let a := {| Id := "1"; Names := ["/a"] |} in
  let lbls := [PingSettled (Resolved tt); Resume 0 (RList (Resolved [a]));
               Resume 0 (RInspect ok)] in
  let w := match run lbls boot with Some w => w | None => boot end in
  exists cs c, In cs (listings lbls) /\ In c cs /\ container_name c = Some "a".
Proof.
  intros ok a lbls w.
  destruct (live_routes_come_from_listings (fun _ => ok) lbls w "a"
              {| name := "a"; ip := "172.17.0.2"; port := "80" |})
    as (cs & c & H1 & H2 & H3 & _).
  - vm_compute. reflexivity.
  - simpl. repeat split; intros; reflexivity.
  - vm_compute. reflexivity.
  - exists cs, c. auto.
Defined.
